(** * The to-do list screen (src/screens/Home.tsx)

    A shallow embedding of the [Home] component: its task list, the three
    handlers [addTask], [toggleTask], [deleteTask], the derived counters, and
    the persistence pair [loadTasks] / [saveTasks] over AsyncStorage with
    [JSON.stringify] / [JSON.parse]. *)

From stdpp Require Import base numbers list strings pretty.
From Stdlib Require Import Ascii ZArith Lia.

Local Open Scope N_scope.

(** ** JavaScript strings

    A JavaScript string is a finite sequence of UTF-16 code units, each an
    integer in [0, 65536). *)

Abbreviation code_unit := N (only parsing).
Abbreviation jsstring := (list N) (only parsing).

(** The code units of an ASCII literal of the source. *)
Definition lit (s : string) : jsstring :=
  N_of_ascii <$> String.list_ascii_of_string s.

(** WhiteSpace and LineTerminator code points of ECMAScript, the ones
    [String.prototype.trim] strips: TAB, LF, VT, FF, CR, SPACE, NBSP,
    U+1680, U+2000 to U+200A, LS, PS, U+202F, U+205F, U+3000 and the BOM. *)
Definition is_white_space (c : code_unit) : bool :=
  bool_decide (c ∈ [0x09; 0x0A; 0x0B; 0x0C; 0x0D; 0x20; 0xA0; 0x1680;
                    0x2028; 0x2029; 0x202F; 0x205F; 0x3000; 0xFEFF])
  || ((0x2000 <=? c) && (c <=? 0x200A)).

Fixpoint trimStart (s : jsstring) : jsstring :=
  match s with
  | [] => []
  | c :: r => if is_white_space c then trimStart r else s
  end.

Definition trimEnd (s : jsstring) : jsstring :=
  reverse (trimStart (reverse s)).

(** [s.trim()] *)
Definition trim (s : jsstring) : jsstring := trimEnd (trimStart s).

(** A string that consists of white space only (the empty string included). *)
Definition whitespace_only (s : jsstring) : Prop :=
  Forall (λ c, is_white_space c = true) s.

(** [n.toString()] for an integral number below 1e21 in magnitude, which
    every reading of [Date.now()] is: the decimal digits, with a leading
    minus sign for a negative number. *)
Definition toString (n : Z) : jsstring := lit (pretty n).

(** ** Tasks *)

(** [interface Task] *)
Record Task := {
  id : jsstring;
  text : jsstring;
  completed : bool;
}.

Global Instance Task_eq_dec : EqDecision Task.
Proof. solve_decision. Defined.

(** ** The component and its environment

    [tasks] and [inputText] are the two [useState] cells of [Home];
    [storage] is the AsyncStorage item under [STORAGE_KEY] ([None] when the
    key is absent); [console] collects the [console.error] calls and [alerts]
    the [Alert.alert] dialogs, oldest first. *)

Inductive LogEntry :=
  | ErrorLoadingTasks
  | ErrorSavingTasks.

Record App := {
  tasks : list Task;
  inputText : jsstring;
  storage : option jsstring;
  console : list LogEntry;
  alerts : list (jsstring * jsstring);
}.

Definition setTasks (ts : list Task) (a : App) : App :=
  {| tasks := ts; inputText := inputText a; storage := storage a;
     console := console a; alerts := alerts a |}.

Definition setInputText (s : jsstring) (a : App) : App :=
  {| tasks := tasks a; inputText := s; storage := storage a;
     console := console a; alerts := alerts a |}.

Definition setItem (s : jsstring) (a : App) : App :=
  {| tasks := tasks a; inputText := inputText a; storage := Some s;
     console := console a; alerts := alerts a |}.

Definition console_error (e : LogEntry) (a : App) : App :=
  {| tasks := tasks a; inputText := inputText a; storage := storage a;
     console := console a ++ [e]; alerts := alerts a |}.

Definition Alert_alert (title message : jsstring) (a : App) : App :=
  {| tasks := tasks a; inputText := inputText a; storage := storage a;
     console := console a; alerts := alerts a ++ [(title, message)] |}.

(** ** The handlers *)

(** [addTask], with [now] the reading of [Date.now()]. *)
Definition addTask (now : Z) (a : App) : App :=
  if decide (trim (inputText a) = [])
  then Alert_alert (lit "Empty Task") (lit "Please enter a task description") a
  else
    let newTask := {| id := toString now;
                      text := trim (inputText a);
                      completed := false |} in
    setInputText [] (setTasks (tasks a ++ [newTask]) a).

(** The function [toggleTask] maps over the list. *)
Definition toggle (i : jsstring) (task : Task) : Task :=
  if decide (id task = i)
  then {| id := id task; text := text task; completed := negb (completed task) |}
  else task.

Definition toggleTask (i : jsstring) (a : App) : App :=
  setTasks (toggle i <$> tasks a) a.

Definition deleteTask (i : jsstring) (a : App) : App :=
  setTasks (filter (λ task, id task ≠ i) (tasks a)) a.

Definition completedCount (a : App) : nat :=
  length (filter (λ task, completed task = true) (tasks a)).

Definition totalCount (a : App) : nat := length (tasks a).

(** What the header shows: [completedCount] of [totalCount]. *)
Definition summary (a : App) : nat * nat := (completedCount a, totalCount a).

(** ** JSON texts

    [JSON.stringify] at the type [Task[]] and [JSON.parse] on an arbitrary
    string, following ECMA-262 (SerializeJSONArray, SerializeJSONObject,
    QuoteJSONString) and the JSON grammar of ECMA-404. *)

(** The code unit of an ASCII character of the grammar. *)
Definition cu (c : ascii) : code_unit := N_of_ascii c.

Definition is_leading_surrogate (c : code_unit) : bool :=
  (0xD800 <=? c) && (c <=? 0xDBFF).

Definition is_trailing_surrogate (c : code_unit) : bool :=
  (0xDC00 <=? c) && (c <=? 0xDFFF).

(** The lower-case hexadecimal digit of a value below 16. *)
Definition hex_digit (d : N) : code_unit :=
  if d <? 10 then cu "0" + d else cu "a" + (d - 10).

(** UnicodeEscape: a backslash, [u] and four hexadecimal digits. *)
Definition unicode_escape (c : code_unit) : jsstring :=
  [cu "\"; cu "u"; hex_digit (c / 4096 mod 16); hex_digit (c / 256 mod 16);
   hex_digit (c / 16 mod 16); hex_digit (c mod 16)].

(** One code unit that is no part of a surrogate pair, as QuoteJSONString
    writes it. *)
Definition quote_unit (c : code_unit) : jsstring :=
  if decide (c = 0x08) then [cu "\"; cu "b"]
  else if decide (c = 0x09) then [cu "\"; cu "t"]
  else if decide (c = 0x0A) then [cu "\"; cu "n"]
  else if decide (c = 0x0C) then [cu "\"; cu "f"]
  else if decide (c = 0x0D) then [cu "\"; cu "r"]
  else if decide (c = 0x22) then [cu "\"; 0x22]
  else if decide (c = 0x5C) then [cu "\"; cu "\"]
  else if (c <? 0x20) || is_leading_surrogate c || is_trailing_surrogate c
       then unicode_escape c
  else [c].

(** The characters between the quotes: the string is read by code points,
    so a leading surrogate directly followed by a trailing one is copied as
    it is, and every other surrogate is escaped. *)
Fixpoint quote_body (s : jsstring) : jsstring :=
  match s with
  | [] => []
  | c :: r =>
      if is_leading_surrogate c then
        match r with
        | d :: r' =>
            if is_trailing_surrogate d then c :: d :: quote_body r'
            else unicode_escape c ++ quote_body r
        | [] => unicode_escape c
        end
      else quote_unit c ++ quote_body r
  end.

(** QuoteJSONString *)
Definition quote (s : jsstring) : jsstring :=
  [0x22] ++ quote_body s ++ [0x22].

(** SerializeJSONObject on a [Task]: its own keys in creation order. *)
Definition stringify_Task (t : Task) : jsstring :=
  lit "{" ++ quote (lit "id") ++ lit ":" ++ quote (id t)
  ++ lit "," ++ quote (lit "text") ++ lit ":" ++ quote (text t)
  ++ lit "," ++ quote (lit "completed") ++ lit ":"
  ++ (if completed t then lit "true" else lit "false") ++ lit "}".

(** The elements of an array after the first, each behind a comma. *)
Fixpoint stringify_more (ts : list Task) : jsstring :=
  match ts with
  | [] => []
  | t :: ts' => lit "," ++ stringify_Task t ++ stringify_more ts'
  end.

(** [JSON.stringify(tasks)] for [tasks : Task[]]. *)
Definition JSON_stringify (ts : list Task) : jsstring :=
  match ts with
  | [] => lit "[]"
  | t :: ts' => lit "[" ++ stringify_Task t ++ stringify_more ts' ++ lit "]"
  end.

(** A parsed JSON text. A number keeps its source text; an object keeps
    its members in source order. *)
#[local] Unset Elimination Schemes.
Inductive json :=
  | JNull
  | JBool (b : bool)
  | JNum (lexeme : jsstring)
  | JStr (s : jsstring)
  | JArr (elements : list json)
  | JObj (members : list (jsstring * json)).
#[local] Set Elimination Schemes.

(** The outcome of a parser: a value, the [SyntaxError] that [JSON.parse]
    throws, or the recursion budget of the model used up. *)
Inductive Result (A : Type) :=
  | Ok (x : A)
  | SyntaxError
  | OutOfFuel.
Arguments Ok {A} x.
Arguments SyntaxError {A}.
Arguments OutOfFuel {A}.

Definition bind {A B} (m : Result A) (k : A → Result B) : Result B :=
  match m with
  | Ok x => k x
  | SyntaxError => SyntaxError
  | OutOfFuel => OutOfFuel
  end.

Notation "' p ← m ; k" := (bind m (λ p, k))
  (at level 20, p pattern, m at level 100, k at level 200, only parsing,
   right associativity).

Definition is_json_ws (c : code_unit) : bool :=
  bool_decide (c ∈ [0x09; 0x0A; 0x0D; 0x20]).

Fixpoint skip_ws (s : jsstring) : jsstring :=
  match s with
  | [] => []
  | c :: r => if is_json_ws c then skip_ws r else s
  end.

(** The value of a hexadecimal digit, in either case. *)
Definition hex_value (c : code_unit) : option N :=
  if (cu "0" <=? c) && (c <=? cu "9") then Some (c - cu "0")
  else if (cu "a" <=? c) && (c <=? cu "f") then Some (c - cu "a" + 10)
  else if (cu "A" <=? c) && (c <=? cu "F") then Some (c - cu "A" + 10)
  else None.

(** The character that a one-letter escape stands for. *)
Definition simple_escape (e : code_unit) : option code_unit :=
  if decide (e = 0x22) then Some 0x22
  else if decide (e = cu "\") then Some 0x5C
  else if decide (e = cu "/") then Some 0x2F
  else if decide (e = cu "b") then Some 0x08
  else if decide (e = cu "f") then Some 0x0C
  else if decide (e = cu "n") then Some 0x0A
  else if decide (e = cu "r") then Some 0x0D
  else if decide (e = cu "t") then Some 0x09
  else None.

(** A string, read from just behind its opening quote. *)
Fixpoint parse_string (s : jsstring) : Result (jsstring * jsstring) :=
  match s with
  | [] => SyntaxError
  | c :: r =>
      if decide (c = 0x22) then Ok ([], r)
      else if decide (c = cu "\") then
        match r with
        | [] => SyntaxError
        | e :: r1 =>
            if decide (e = cu "u") then
              match r1 with
              | h1 :: h2 :: h3 :: h4 :: r2 =>
                  match hex_value h1, hex_value h2, hex_value h3, hex_value h4 with
                  | Some d1, Some d2, Some d3, Some d4 =>
                      '(str, rest) ← parse_string r2;
                      Ok ((((d1 * 16 + d2) * 16 + d3) * 16 + d4) :: str, rest)
                  | _, _, _, _ => SyntaxError
                  end
              | _ => SyntaxError
              end
            else
              match simple_escape e with
              | Some x => '(str, rest) ← parse_string r1; Ok (x :: str, rest)
              | None => SyntaxError
              end
        end
      else if c <? 0x20 then SyntaxError
      else '(str, rest) ← parse_string r; Ok (c :: str, rest)
  end.

Definition is_digit (c : code_unit) : bool :=
  (cu "0" <=? c) && (c <=? cu "9").

(** The longest run of digits at the head of [s], and what follows it. *)
Fixpoint span_digits (s : jsstring) : jsstring * jsstring :=
  match s with
  | [] => ([], [])
  | c :: r =>
      if is_digit c then let '(ds, rest) := span_digits r in (c :: ds, rest)
      else ([], s)
  end.

(** A run of one digit or more. *)
Definition digits1 (s : jsstring) : Result (jsstring * jsstring) :=
  match span_digits s with
  | ([], _) => SyntaxError
  | (ds, rest) => Ok (ds, rest)
  end.

(** The integer part: a single zero, or a non-zero digit and more digits. *)
Definition parse_int (s : jsstring) : Result (jsstring * jsstring) :=
  match s with
  | [] => SyntaxError
  | c :: r =>
      if decide (c = cu "0") then Ok ([c], r)
      else if is_digit c then
        let '(ds, rest) := span_digits r in Ok (c :: ds, rest)
      else SyntaxError
  end.

Definition parse_frac (s : jsstring) : Result (jsstring * jsstring) :=
  match s with
  | c :: r =>
      if decide (c = cu ".") then
        '(ds, rest) ← digits1 r; Ok (c :: ds, rest)
      else Ok ([], s)
  | [] => Ok ([], s)
  end.

Definition parse_exp (s : jsstring) : Result (jsstring * jsstring) :=
  match s with
  | c :: r =>
      if decide (c = cu "e" ∨ c = cu "E") then
        match r with
        | g :: r1 =>
            if decide (g = cu "+" ∨ g = cu "-") then
              '(ds, rest) ← digits1 r1; Ok (c :: g :: ds, rest)
            else
              '(ds, rest) ← digits1 r; Ok (c :: ds, rest)
        | [] => SyntaxError
        end
      else Ok ([], s)
  | [] => Ok ([], s)
  end.

(** A number: optional minus, integer part, optional fraction, optional
    exponent. The result is its text and what follows. *)
Definition parse_number (s : jsstring) : Result (jsstring * jsstring) :=
  let '(sign, s0) :=
    match s with
    | c :: r => if decide (c = cu "-") then ([c], r) else ([], s)
    | [] => ([], s)
    end in
  '(int, s1) ← parse_int s0;
  '(frac, s2) ← parse_frac s1;
  '(exp, s3) ← parse_exp s2;
  Ok (sign ++ int ++ frac ++ exp, s3).

(** The rest of [s] behind the prefix [word]. *)
Fixpoint expect (word s : jsstring) : Result jsstring :=
  match word with
  | [] => Ok s
  | w :: word' =>
      match s with
      | c :: r => if decide (c = w) then expect word' r else SyntaxError
      | [] => SyntaxError
      end
  end.

(** A value at the head of [s] (white space before it already skipped);
    the elements of an array from its first element on; the members of an
    object from its first key on. Every call spends one unit of [fuel]. *)
Fixpoint parse_value (fuel : nat) (s : jsstring) : Result (json * jsstring) :=
  match fuel with
  | O => OutOfFuel
  | S fuel =>
      match s with
      | [] => SyntaxError
      | c :: r =>
          if decide (c = 0x22) then
            '(str, rest) ← parse_string r; Ok (JStr str, rest)
          else if decide (c = cu "[") then
            match skip_ws r with
            | [] => SyntaxError
            | d :: r1 =>
                if decide (d = cu "]") then Ok (JArr [], r1)
                else '(vs, rest) ← parse_elements fuel (d :: r1);
                     Ok (JArr vs, rest)
            end
          else if decide (c = cu "{") then
            match skip_ws r with
            | [] => SyntaxError
            | d :: r1 =>
                if decide (d = cu "}") then Ok (JObj [], r1)
                else '(ms, rest) ← parse_members fuel (d :: r1);
                     Ok (JObj ms, rest)
            end
          else if decide (c = cu "t") then
            '(rest) ← expect (lit "rue") r; Ok (JBool true, rest)
          else if decide (c = cu "f") then
            '(rest) ← expect (lit "alse") r; Ok (JBool false, rest)
          else if decide (c = cu "n") then
            '(rest) ← expect (lit "ull") r; Ok (JNull, rest)
          else
            '(lexeme, rest) ← parse_number s; Ok (JNum lexeme, rest)
      end
  end
with parse_elements (fuel : nat) (s : jsstring) : Result (list json * jsstring) :=
  match fuel with
  | O => OutOfFuel
  | S fuel =>
      '(v, r) ← parse_value fuel s;
      match skip_ws r with
      | [] => SyntaxError
      | c :: r1 =>
          if decide (c = cu ",") then
            '(vs, rest) ← parse_elements fuel (skip_ws r1); Ok (v :: vs, rest)
          else if decide (c = cu "]") then Ok ([v], r1)
          else SyntaxError
      end
  end
with parse_members (fuel : nat) (s : jsstring)
    : Result (list (jsstring * json) * jsstring) :=
  match fuel with
  | O => OutOfFuel
  | S fuel =>
      match s with
      | [] => SyntaxError
      | c :: r =>
          if decide (c = 0x22) then
            '(key, r1) ← parse_string r;
            match skip_ws r1 with
            | [] => SyntaxError
            | d :: r2 =>
                if decide (d = cu ":") then
                  '(v, r3) ← parse_value fuel (skip_ws r2);
                  match skip_ws r3 with
                  | [] => SyntaxError
                  | e :: r4 =>
                      if decide (e = cu ",") then
                        '(ms, rest) ← parse_members fuel (skip_ws r4);
                        Ok ((key, v) :: ms, rest)
                      else if decide (e = cu "}") then Ok ([(key, v)], r4)
                      else SyntaxError
                  end
                else SyntaxError
            end
          else SyntaxError
      end
  end.

(** [JSON.parse(s)]: one value between optional white space. The budget
    [2 * length s + 1] is never used up (see [JSON_parse_fuel]). *)
Definition JSON_parse (s : jsstring) : Result json :=
  '(v, rest) ← parse_value (2 * length s + 1) (skip_ws s);
  match skip_ws rest with
  | [] => Ok v
  | _ :: _ => SyntaxError
  end.

(** ** The typed view of a parsed text

    [setTasks(JSON.parse(storedTasks))] hands the parsed value to a state
    cell of type [Task[]] without a check. The texts this component writes
    denote arrays of objects with exactly the members [id], [text] and
    [completed], in this order, two strings and a boolean; [Task_json] is
    that shape and [as_tasks] recognises it. *)

Definition Task_json (t : Task) : json :=
  JObj [(lit "id", JStr (id t)); (lit "text", JStr (text t));
        (lit "completed", JBool (completed t))].

Definition tasks_json (ts : list Task) : json := JArr (Task_json <$> ts).

Definition as_Task (v : json) : option Task :=
  match v with
  | JObj [(k1, JStr i); (k2, JStr t); (k3, JBool c)] =>
      if decide (k1 = lit "id" ∧ k2 = lit "text" ∧ k3 = lit "completed")
      then Some {| id := i; text := t; completed := c |}
      else None
  | _ => None
  end.

Definition as_tasks (v : json) : option (list Task) :=
  match v with
  | JArr vs => mapM as_Task vs
  | _ => None
  end.

(** ** Persistence *)

(** What one run of [loadTasks] does to the component. *)
Inductive LoadEffect :=
  | NoChange                 (* [getItem] gave [null]: nothing is set, nothing logged *)
  | CallSetTasks (v : json)  (* [setTasks(JSON.parse(storedTasks))] *)
  | Caught                   (* the [catch] block: [console.error] *)
  | Unmodelled.              (* the parser of the model ran out of budget *)

(** The body of [loadTasks]; [read_ok] tells whether [AsyncStorage.getItem]
    resolved, and [stored] is what it resolved to. *)
Definition load_effect (read_ok : bool) (stored : option jsstring) : LoadEffect :=
  if read_ok then
    match stored with
    | None => NoChange
    | Some storedTasks =>
        match JSON_parse storedTasks with
        | Ok v => CallSetTasks v
        | SyntaxError => Caught
        | OutOfFuel => Unmodelled
        end
    end
  else Caught.

(** [loadTasks] on the typed component: [None] when [setTasks] is called
    with a value that does not have the shape of a [Task[]], a state the
    typed model does not represent. *)
Definition loadTasks (read_ok : bool) (a : App) : option App :=
  match load_effect read_ok (storage a) with
  | NoChange => Some a
  | CallSetTasks v => (λ ts, setTasks ts a) <$> as_tasks v
  | Caught => Some (console_error ErrorLoadingTasks a)
  | Unmodelled => None
  end.

(** [saveTasks]; [write_ok] tells whether [AsyncStorage.setItem] resolved. *)
Definition saveTasks (write_ok : bool) (a : App) : App :=
  if write_ok then setItem (JSON_stringify (tasks a)) a
  else console_error ErrorSavingTasks a.

(** ** Runs of the application *)

(** What happens to the component: it is mounted (both state cells take
    their initial values), one of its two effects runs, the user edits the
    input field, or one of the three handlers runs. *)
Inductive Event :=
  | Mount
  | LoadTasks (read_ok : bool)
  | SaveTasks (write_ok : bool)
  | ChangeText (s : jsstring)
  | AddTask (now : Z)
  | ToggleTask (i : jsstring)
  | DeleteTask (i : jsstring).

Definition step (e : Event) (a : App) : option App :=
  match e with
  | Mount => Some (setInputText [] (setTasks [] a))
  | LoadTasks read_ok => loadTasks read_ok a
  | SaveTasks write_ok => Some (saveTasks write_ok a)
  | ChangeText s => Some (setInputText s a)
  | AddTask now => Some (addTask now a)
  | ToggleTask i => Some (toggleTask i a)
  | DeleteTask i => Some (deleteTask i a)
  end.

Fixpoint run (es : list Event) (a : App) : option App :=
  match es with
  | [] => Some a
  | e :: es' =>
      match step e a with
      | Some a' => run es' a'
      | None => None
      end
  end.

(** The application at first installation, before it is mounted. *)
Definition fresh : App :=
  {| tasks := []; inputText := []; storage := None; console := [];
     alerts := [] |}.

Definition reachable (a : App) : Prop := ∃ es, run es fresh = Some a.

(** The task list that a stored value denotes, when it is present, parses
    and has the shape of a [Task[]]. *)
Definition stored_tasks (stored : option jsstring) : option (list Task) :=
  match stored with
  | None => None
  | Some s =>
      match JSON_parse s with
      | Ok v => as_tasks v
      | _ => None
      end
  end.

(** After [loadTasks], the component still holds the task list it was
    mounted with: [setTasks] was not called. *)
Definition keeps_tasks (e : LoadEffect) : bool :=
  match e with
  | NoChange | Caught => true
  | CallSetTasks _ | Unmodelled => false
  end.

(** [loadTasks] reported a failure on the console. *)
Definition logs_failure (e : LoadEffect) : bool :=
  match e with
  | Caught => true
  | _ => false
  end.

(** The text of a task is neither empty nor white space only. *)
Definition text_ok (t : Task) : Prop :=
  text t ≠ [] ∧ ¬ whitespace_only (text t).

(** The readings of [Date.now()] along a run, oldest first. *)
Fixpoint clock_readings (es : list Event) : list Z :=
  match es with
  | [] => []
  | AddTask now :: es' => now :: clock_readings es'
  | _ :: es' => clock_readings es'
  end.

(** Every reading is at least [bound] and later than the one before it. *)
Fixpoint increasing_from (bound : Z) (zs : list Z) : Prop :=
  match zs with
  | [] => True
  | z :: zs' => (bound ≤ z)%Z ∧ increasing_from (z + 1) zs'
  end.

(** The scenario of the specification: two tasks are added at the clock
    readings [now1] and [now2], then the first one is toggled. *)
Definition scenario (now1 now2 : Z) : list Event :=
  [ChangeText (lit "Buy milk"); AddTask now1;
   ChangeText (lit "Walk dog"); AddTask now2;
   ToggleTask (toString now1)].

(** ** States and predicates used in the statements *)

(** A store with two tasks, the first one completed, used to instantiate
    the statements below. *)
Definition sample : App :=
  {| tasks := [ {| id := lit "1700000000000"; text := lit "Buy milk";
                   completed := true |};
                {| id := lit "1700000000999"; text := lit "Walk dog";
                   completed := false |} ];
     inputText := []; storage := None; console := []; alerts := [] |}.

(** The task list satisfies [P], and so does the task list that the stored
    snapshot was written from, when there is a snapshot. *)
Definition store_inv (P : list Task → Prop) (a : App) : Prop :=
  P (tasks a)
  ∧ ∀ s, storage a = Some s → ∃ ts, s = JSON_stringify ts ∧ P ts.

(** The ids of a task list are readings of the clock before [bound], and
    no two of them are equal. *)
Definition ids_before (bound : Z) (ts : list Task) : Prop :=
  NoDup (id <$> ts)
  ∧ Forall (λ t, ∃ z, (z < bound)%Z ∧ id t = toString z) ts.

(** Two tasks are added while the clock shows the same millisecond; each
    change of the task list is followed by the save effect. *)
Definition double_add : list Event :=
  [Mount; LoadTasks true; SaveTasks true;
   ChangeText (lit "Buy milk"); AddTask 1700000000000; SaveTasks true;
   ChangeText (lit "Walk dog"); AddTask 1700000000000; SaveTasks true].

(** An installation whose stored value is not a JSON text. *)
Definition corrupted : App := setItem (lit "{oops") fresh.

(** ** What the screen shows

    The parts of the rendered tree that depend on the state: the row of a
    task (src/components/TaskItem.tsx) and, for [Home], the statistics line,
    the input field and the list or its placeholder. Styles that do not
    depend on the state are left out. *)

(** [interface TaskItemProps] *)
Record TaskItemProps := {
  props_id : jsstring;
  props_text : jsstring;
  props_completed : bool;
  onToggle : jsstring → App → App;
  onDelete : jsstring → App → App;
}.

(** The row of one task: the checkbox takes [styles.checkboxCompleted] and
    holds the checkmark icon when the task is completed, the label shows the
    text and is struck through when the task is completed, and the two
    touchables call [onToggle(id)] and [onDelete(id)]. *)
Record TaskItemView := {
  checkbox_completed : bool;
  checkmark : bool;
  label : jsstring;
  label_completed : bool;
  press_content : App → App;
  press_delete : App → App;
}.

Definition TaskItem (p : TaskItemProps) : TaskItemView :=
  {| checkbox_completed := props_completed p;
     checkmark := props_completed p;
     label := props_text p;
     label_completed := props_completed p;
     press_content := onToggle p (props_id p);
     press_delete := onDelete p (props_id p) |}.

(** [renderItem] of the list, with the key that [keyExtractor] gives. *)
Definition renderItem (item : Task) : jsstring * TaskItemView :=
  (id item,
   TaskItem {| props_id := id item; props_text := text item;
               props_completed := completed item;
               onToggle := toggleTask; onDelete := deleteTask |}).

(** The state-dependent part of what [Home] returns. [stats] is the text of
    the statistics line, present when [totalCount > 0]; [rows] is the data
    of the list, or [None] when the "No tasks yet!" placeholder is shown in
    its place; the add button and the submit key of the input field both
    call [addTask]. *)
Record HomeView := {
  stats : option jsstring;
  input_value : jsstring;
  change_text : jsstring → App → App;
  press_add : Z → App → App;
  rows : option (list (jsstring * TaskItemView));
}.

Definition render (a : App) : HomeView :=
  {| stats :=
       if decide (0 < totalCount a)%nat
       then Some (toString (Z.of_nat (completedCount a)) ++ lit " of "
                  ++ toString (Z.of_nat (totalCount a)) ++ lit " completed")
       else None;
     input_value := inputText a;
     change_text := setInputText;
     press_add := addTask;
     rows :=
       if decide (length (tasks a) = 0%nat) then None
       else Some (renderItem <$> tasks a) |}.

(** A task with its [completed] flag negated. *)
Definition flipped (t : Task) : Task :=
  {| id := id t; text := text t; completed := negb (completed t) |}.

(** Both storage calls of an event succeed. *)
Definition io_ok (e : Event) : bool :=
  match e with
  | LoadTasks read_ok => read_ok
  | SaveTasks write_ok => write_ok
  | _ => true
  end.


(** * Properties *)

(** ** [JSON.parse] reads back what [JSON.stringify] writes *)

Ltac unbool :=
  repeat progress
    rewrite ?andb_true_iff, ?orb_true_iff, ?andb_false_iff, ?orb_false_iff,
      ?N.ltb_lt, ?N.leb_le, ?N.ltb_ge, ?N.leb_gt in *.

Lemma hex_value_digit d : d < 16 → hex_value (hex_digit d) = Some d.
Proof.
  intros Hd.
  assert (d ∈ [0;1;2;3;4;5;6;7;8;9;10;11;12;13;14;15]) as Hin.
  { rewrite !elem_of_cons. lia. }
  rewrite !elem_of_cons, elem_of_nil in Hin.
  destruct_or!; subst; done.
Qed.

Lemma hex_split c :
  c < 65536 →
  ((c / 4096 mod 16 * 16 + c / 256 mod 16) * 16 + c / 16 mod 16) * 16
    + c mod 16 = c.
Proof.
  intros Hc.
  change 4096 with (16 * 16 * 16). change 256 with (16 * 16).
  rewrite <-!N.Div0.div_div.
  pose proof (N.div_mod c 16). pose proof (N.div_mod (c / 16) 16).
  pose proof (N.div_mod (c / 16 / 16) 16).
  assert (c / 16 / 16 / 16 < 16).
  { rewrite !N.Div0.div_div. apply N.Div0.div_lt_upper_bound. lia. }
  rewrite (N.mod_small (c / 16 / 16 / 16)) by done. lia.
Qed.

Lemma parse_string_unicode_escape c rest :
  c < 65536 →
  parse_string (unicode_escape c ++ rest)
  = '(str, r) ← parse_string rest; Ok (c :: str, r).
Proof.
  intros Hc. unfold unicode_escape. simpl.
  rewrite !hex_value_digit by (apply N.mod_lt; done).
  rewrite hex_split by done. done.
Qed.

Lemma parse_string_quote_unit c rest :
  parse_string (quote_unit c ++ rest)
  = '(str, r) ← parse_string rest; Ok (c :: str, r).
Proof.
  unfold quote_unit, is_leading_surrogate, is_trailing_surrogate.
  repeat case_decide; subst; try done.
  destruct ((c <? 32) || (55296 <=? c) && (c <=? 56319)
            || (56320 <=? c) && (c <=? 57343)) eqn:Hesc.
  - apply parse_string_unicode_escape. unbool. lia.
  - simpl. rewrite !decide_False by done.
    destruct (c <? 32) eqn:Hlo; [|done]. unbool. lia.
Qed.

Ltac cu_norm :=
  repeat match goal with
    | |- context [cu ?a] =>
        let v := eval vm_compute in (cu a) in change (cu a) with v
    | |- context [lit ?w] =>
        let v := eval vm_compute in (lit w) in change (lit w) with v
    end.

Lemma quote_body_pair c d r :
  is_leading_surrogate c = true → is_trailing_surrogate d = true →
  quote_body (c :: d :: r) = c :: d :: quote_body r.
Proof. intros Hc Hd. cbn [quote_body]. by rewrite Hc, Hd. Qed.

Lemma quote_body_lone c r :
  is_leading_surrogate c = true →
  (∀ d r', r = d :: r' → is_trailing_surrogate d = false) →
  quote_body (c :: r) = unicode_escape c ++ quote_body r.
Proof.
  intros Hc Hr. cbn [quote_body]. rewrite Hc.
  destruct r as [|d r']; [by rewrite app_nil_r|].
  by rewrite (Hr d r').
Qed.

Lemma quote_body_unit c r :
  is_leading_surrogate c = false →
  quote_body (c :: r) = quote_unit c ++ quote_body r.
Proof. intros Hc. cbn [quote_body]. by rewrite Hc. Qed.

Lemma parse_string_raw c r :
  c ≠ 0x22 → c ≠ 0x5C → 0x20 ≤ c →
  parse_string (c :: r) = '(str, rest) ← parse_string r; Ok (c :: str, rest).
Proof.
  intros H1 H2 H3. cbn [parse_string]. cu_norm.
  rewrite !decide_False by done.
  destruct (c <? 32) eqn:Hc; [unbool; lia|done].
Qed.

Lemma parse_string_quote_body s rest :
  parse_string (quote_body s ++ 0x22 :: rest) = Ok (s, rest).
Proof.
  remember (length s) as n eqn:Hn. revert s Hn.
  induction (lt_wf n) as [n _ IH]. intros s ->.
  destruct s as [|c r]; [done|].
  destruct (is_leading_surrogate c) eqn:Hlead.
  - destruct r as [|d r'].
    + rewrite quote_body_lone by done.
      unfold is_leading_surrogate in Hlead.
      rewrite <-app_assoc, parse_string_unicode_escape by (unbool; lia). done.
    + destruct (is_trailing_surrogate d) eqn:Htrail.
      * rewrite quote_body_pair by done.
        unfold is_leading_surrogate in Hlead.
        unfold is_trailing_surrogate in Htrail.
        rewrite <-!app_comm_cons.
        rewrite !parse_string_raw by (unbool; lia).
        rewrite (IH (length r')) by (simpl; done || lia). done.
      * rewrite quote_body_lone by (done || congruence).
        unfold is_leading_surrogate in Hlead.
        rewrite <-app_assoc, parse_string_unicode_escape by (unbool; lia).
        rewrite (IH (length (d :: r'))) by (simpl; done || lia). done.
  - rewrite quote_body_unit by done.
    rewrite <-app_assoc, parse_string_quote_unit.
    rewrite (IH (length r)) by (simpl; done || lia). done.
Qed.

Lemma parse_value_Task n t rest :
  (5 ≤ n)%nat →
  parse_value n (stringify_Task t ++ rest) = Ok (Task_json t, rest).
Proof.
  intros Hn. do 5 (destruct n as [|n]; [lia|]). clear Hn.
  destruct t as [i tx c].
  unfold stringify_Task, quote, Task_json. cu_norm. rewrite <-?app_assoc.
  cbn [id text completed]. simpl.
  rewrite parse_string_quote_body. simpl.
  rewrite parse_string_quote_body. simpl.
  by destruct c.
Qed.

Lemma skip_ws_stringify_Task t rest :
  skip_ws (stringify_Task t ++ rest) = stringify_Task t ++ rest.
Proof. done. Qed.

Lemma parse_elements_tasks n t ts rest :
  (length ts + 6 ≤ n)%nat →
  parse_elements n (stringify_Task t ++ stringify_more ts ++ lit "]" ++ rest)
  = Ok (Task_json <$> t :: ts, rest).
Proof.
  cu_norm. cbn [app]. revert n t.
  induction ts as [|t' ts IH]; intros n t Hn; simpl in Hn;
    (destruct n as [|n]; [lia|]); cbn [parse_elements stringify_more];
    rewrite parse_value_Task by lia; cbn [bind]; cu_norm.
  - done.
  - rewrite <-!app_assoc. cbn [app skip_ws].
    change (is_json_ws 44) with false. cbv iota.
    rewrite decide_True by done.
    rewrite skip_ws_stringify_Task, IH by lia. done.
Qed.

Lemma length_stringify_more ts : (length ts ≤ length (stringify_more ts))%nat.
Proof.
  induction ts as [|t ts IH]; [done|].
  cbn [stringify_more]. rewrite !length_app. simpl. lia.
Qed.

Lemma JSON_parse_stringify ts :
  JSON_parse (JSON_stringify ts) = Ok (tasks_json ts).
Proof.
  destruct ts as [|t ts]; [done|].
  unfold JSON_parse, JSON_stringify, tasks_json.
  set (n := (2 * length _ + 1)%nat).
  assert (length ts + 7 ≤ n)%nat as Hn.
  { subst n. rewrite !length_app. pose proof (length_stringify_more ts).
    unfold stringify_Task. rewrite !length_app. simpl length. lia. }
  destruct n as [|n]; [lia|].
  cu_norm. cbn [app skip_ws]. change (is_json_ws 91) with false.
  cbn [parse_value]. cu_norm. rewrite decide_False, decide_True by done.
  rewrite skip_ws_stringify_Task.
  assert (∀ X, stringify_Task t ++ X = 123 :: tail (stringify_Task t ++ X))
    as E by done.
  rewrite E. cbv iota. rewrite decide_False by done. rewrite <-E.
  pose proof (parse_elements_tasks n t ts []) as Hp.
  revert Hp. cu_norm. rewrite app_nil_r. intros ->; [|lia]. done.
Qed.

Lemma as_tasks_json ts : as_tasks (tasks_json ts) = Some ts.
Proof.
  unfold as_tasks, tasks_json. apply mapM_Some.
  induction ts as [|[i tx c] ts IH]; constructor; [|done].
  unfold as_Task, Task_json. cbn [id text completed].
  by rewrite decide_True.
Qed.

Lemma JSON_parse_empty : JSON_parse (JSON_stringify []) = Ok (JArr []).
Proof. done. Qed.

(** *** The parser consumes input and never exhausts its budget *)

Lemma skip_ws_length s : (length (skip_ws s) ≤ length s)%nat.
Proof.
  induction s as [|c r IH]; [done|]. cbn [skip_ws].
  destruct (is_json_ws c); simpl; lia.
Qed.

Lemma bind_Ok {A B} (m : Result A) (k : A → Result B) y :
  bind m k = Ok y → ∃ x, m = Ok x ∧ k x = Ok y.
Proof. destruct m; naive_solver. Qed.

Lemma bind_OutOfFuel {A B} (m : Result A) (k : A → Result B) :
  bind m k = OutOfFuel →
  m = OutOfFuel ∨ ∃ x, m = Ok x ∧ k x = OutOfFuel.
Proof. destruct m; naive_solver. Qed.

Ltac bind_inv :=
  repeat match goal with
    | H : bind _ _ = Ok _ |- _ =>
        let x := fresh "x" in
        let Hx := fresh "Hx" in
        apply bind_Ok in H as (x & Hx & H);
        try destruct x as [? ?]; cbn beta iota in H
    end;
  simplify_eq.

Lemma parse_string_length s str r :
  parse_string s = Ok (str, r) → (length r < length s)%nat.
Proof.
  remember (length s) as n eqn:Hn. revert s str r Hn.
  induction (lt_wf n) as [n _ IH]. intros s str r -> Hs.
  destruct s as [|c s]; [done|]. cbn [parse_string] in Hs.
  repeat case_decide.
  - bind_inv. simpl. lia.
  - destruct s as [|e s]; [done|]. case_decide.
    + destruct s as [|h1 [|h2 [|h3 [|h4 s]]]]; try done.
      destruct (hex_value h1), (hex_value h2), (hex_value h3), (hex_value h4);
        try done.
      bind_inv. eapply (IH (length s)) in Hx; [|simpl; lia|done]. simpl. lia.
    + destruct (simple_escape e); [|done]. bind_inv.
      eapply (IH (length s)) in Hx; [|simpl; lia|done]. simpl. lia.
  - destruct (c <? 32); [done|]. bind_inv.
    eapply (IH (length s)) in Hx; [|simpl; lia|done]. simpl. lia.
Qed.

Lemma parse_string_fuel s : parse_string s ≠ OutOfFuel.
Proof.
  remember (length s) as n eqn:Hn. revert s Hn.
  induction (lt_wf n) as [n _ IH]. intros s -> Hs.
  destruct s as [|c s]; [done|]. cbn [parse_string] in Hs.
  repeat case_decide; try done.
  - destruct s as [|e s]; [done|]. case_decide.
    + destruct s as [|h1 [|h2 [|h3 [|h4 s]]]]; try done.
      destruct (hex_value h1), (hex_value h2), (hex_value h3), (hex_value h4);
        try done.
      apply bind_OutOfFuel in Hs as [Hs|([? ?] & _ & ?)]; [|done].
      eapply (IH (length s)) in Hs; [done|simpl; lia|done].
    + destruct (simple_escape e); [|done].
      apply bind_OutOfFuel in Hs as [Hs|([? ?] & _ & ?)]; [|done].
      eapply (IH (length s)) in Hs; [done|simpl; lia|done].
  - destruct (c <? 32); [done|].
    apply bind_OutOfFuel in Hs as [Hs|([? ?] & _ & ?)]; [|done].
    eapply (IH (length s)) in Hs; [done|simpl; lia|done].
Qed.

Lemma expect_length w s r : expect w s = Ok r → (length r ≤ length s)%nat.
Proof.
  revert s. induction w as [|c w IH]; intros s Hs; simpl in Hs.
  - by bind_inv.
  - destruct s as [|d s]; [done|]. case_decide; [|done].
    apply IH in Hs. simpl. lia.
Qed.

Lemma expect_fuel w s : expect w s ≠ OutOfFuel.
Proof.
  revert s. induction w as [|c w IH]; intros s; simpl; [done|].
  destruct s as [|d s]; [done|]. case_decide; [apply IH|done].
Qed.

Lemma span_digits_length s ds r :
  span_digits s = (ds, r) → (length r ≤ length s)%nat.
Proof.
  revert ds r. induction s as [|c s IH]; intros ds r Hs; simpl in Hs.
  - by simplify_eq.
  - destruct (is_digit c); [|by simplify_eq].
    destruct (span_digits s) as [ds' r'] eqn:E. simplify_eq.
    specialize (IH _ _ eq_refl). simpl. lia.
Qed.

Lemma digits1_length s ds r :
  digits1 s = Ok (ds, r) → (length r ≤ length s)%nat.
Proof.
  unfold digits1. destruct (span_digits s) as [[|d ds'] r'] eqn:E; [done|].
  intros ?; simplify_eq. by eapply span_digits_length.
Qed.

Lemma digits1_fuel s : digits1 s ≠ OutOfFuel.
Proof. unfold digits1. by destruct (span_digits s) as [[|??] ?]. Qed.

Lemma parse_int_length s ds r :
  parse_int s = Ok (ds, r) → (length r < length s)%nat.
Proof.
  unfold parse_int. destruct s as [|c s]; [done|].
  case_decide; [intros; simplify_eq; simpl; lia|].
  destruct (is_digit c); [|done].
  destruct (span_digits s) as [ds' r'] eqn:E. intros; simplify_eq.
  apply span_digits_length in E. simpl. lia.
Qed.

Lemma parse_frac_length s ds r :
  parse_frac s = Ok (ds, r) → (length r ≤ length s)%nat.
Proof.
  unfold parse_frac. destruct s as [|c s]; [by intros; simplify_eq|].
  case_decide; [|by intros; simplify_eq]. intros Hs. bind_inv.
  apply digits1_length in Hx. simpl. lia.
Qed.

Lemma parse_exp_length s ds r :
  parse_exp s = Ok (ds, r) → (length r ≤ length s)%nat.
Proof.
  unfold parse_exp. destruct s as [|c s]; [by intros; simplify_eq|].
  case_decide; [|by intros; simplify_eq].
  destruct s as [|g s]; [done|].
  case_decide; intros Hs; bind_inv; apply digits1_length in Hx;
    simpl in *; lia.
Qed.

Lemma parse_number_length s lexeme r :
  parse_number s = Ok (lexeme, r) → (length r < length s)%nat.
Proof.
  unfold parse_number.
  set (p := match s with [] => _ | _ => _ end).
  assert (length p.2 ≤ length s)%nat as Hp.
  { subst p. destruct s as [|c s]; [done|]. case_decide; simpl; lia. }
  destruct p as [sign s0]. simpl in Hp. intros Hs.
  apply bind_Ok in Hs as ([int s1] & Hint & Hs).
  apply bind_Ok in Hs as ([frac s2] & Hfrac & Hs).
  apply bind_Ok in Hs as ([exp s3] & Hexp & Hs). simplify_eq.
  apply parse_int_length in Hint. apply parse_frac_length in Hfrac.
  apply parse_exp_length in Hexp. lia.
Qed.

Lemma parse_number_fuel s : parse_number s ≠ OutOfFuel.
Proof.
  unfold parse_number.
  destruct (match s with [] => _ | _ => _ end) as [sign s0].
  intros Hs.
  apply bind_OutOfFuel in Hs as [Hs|([int s1] & _ & Hs)].
  { unfold parse_int in Hs. destruct s0 as [|c s0]; [done|].
    case_decide; [done|]. destruct (is_digit c); [|done].
    by destruct (span_digits s0). }
  apply bind_OutOfFuel in Hs as [Hs|([frac s2] & _ & Hs)].
  { unfold parse_frac in Hs. destruct s1 as [|c s1]; [done|].
    case_decide; [|done].
    apply bind_OutOfFuel in Hs as [Hs|([??] & _ & ?)]; [|done].
    by apply digits1_fuel in Hs. }
  apply bind_OutOfFuel in Hs as [Hs|([exp s3] & _ & Hs)]; [|done].
  unfold parse_exp in Hs. destruct s2 as [|c s2]; [done|].
  case_decide; [|done]. destruct s2 as [|g s2]; [done|].
  case_decide; apply bind_OutOfFuel in Hs as [Hs|([??] & _ & ?)];
    done || by apply digits1_fuel in Hs.
Qed.

Lemma skip_ws_cons_length s c r :
  skip_ws s = c :: r → (length r < length s)%nat.
Proof. intros E. pose proof (skip_ws_length s) as H. rewrite E in H. simpl in H. lia. Qed.

Lemma parse_length fuel :
  (∀ s v r, parse_value fuel s = Ok (v, r) → (length r < length s)%nat)
  ∧ (∀ s vs r, parse_elements fuel s = Ok (vs, r) → (length r < length s)%nat)
  ∧ (∀ s ms r, parse_members fuel s = Ok (ms, r) → (length r < length s)%nat).
Proof.
  induction fuel as [|fuel (IHv & IHe & IHm)]; [done|].
  split_and!; intros s x r Hs.
  - cbn [parse_value] in Hs. destruct s as [|c s]; [done|].
    repeat case_decide.
    + bind_inv. apply parse_string_length in Hx. simpl. lia.
    + destruct (skip_ws s) as [|d r1] eqn:E; [done|].
      apply skip_ws_cons_length in E as E'.
      case_decide; [simplify_eq; simpl; lia|]. bind_inv.
      apply IHe in Hx. simpl in *. lia.
    + destruct (skip_ws s) as [|d r1] eqn:E; [done|].
      apply skip_ws_cons_length in E as E'.
      case_decide; [simplify_eq; simpl; lia|]. bind_inv.
      apply IHm in Hx. simpl in *. lia.
    + bind_inv. apply expect_length in Hx. simpl. lia.
    + bind_inv. apply expect_length in Hx. simpl. lia.
    + bind_inv. apply expect_length in Hx. simpl. lia.
    + bind_inv. by apply parse_number_length in Hx.
  - cbn [parse_elements] in Hs.
    apply bind_Ok in Hs as ([v r0] & Hv & Hs). apply IHv in Hv.
    destruct (skip_ws r0) as [|c r1] eqn:E; [done|].
    apply skip_ws_cons_length in E.
    repeat case_decide; [|simplify_eq; lia|done].
    bind_inv. apply IHe in Hx. pose proof (skip_ws_length r1). lia.
  - cbn [parse_members] in Hs. destruct s as [|c s]; [done|].
    case_decide; [|done].
    apply bind_Ok in Hs as ([key r1] & Hk & Hs).
    apply parse_string_length in Hk.
    destruct (skip_ws r1) as [|d r2] eqn:E1; [done|].
    apply skip_ws_cons_length in E1. case_decide; [|done].
    apply bind_Ok in Hs as ([v r3] & Hv & Hs). apply IHv in Hv.
    pose proof (skip_ws_length r2).
    destruct (skip_ws r3) as [|e r4] eqn:E3; [done|].
    apply skip_ws_cons_length in E3.
    repeat case_decide; [|simplify_eq; simpl; lia|done].
    bind_inv. apply IHm in Hx. pose proof (skip_ws_length r4). simpl. lia.
Qed.

Lemma parse_fuel fuel :
  (∀ s, (2 * length s + 1 ≤ fuel)%nat → parse_value fuel s ≠ OutOfFuel)
  ∧ (∀ s, (2 * length s + 2 ≤ fuel)%nat → parse_elements fuel s ≠ OutOfFuel)
  ∧ (∀ s, (2 * length s + 2 ≤ fuel)%nat → parse_members fuel s ≠ OutOfFuel).
Proof.
  induction fuel as [|fuel (IHv & IHe & IHm)]; [split_and!; intros; lia|].
  split_and!; intros s Hf Hs.
  - cbn [parse_value] in Hs. destruct s as [|c s]; [done|]. simpl in Hf.
    repeat case_decide.
    + apply bind_OutOfFuel in Hs as [Hs|([??] & _ & ?)]; [|done].
      by apply parse_string_fuel in Hs.
    + destruct (skip_ws s) as [|d r1] eqn:E; [done|].
      pose proof (skip_ws_length s) as Hl. rewrite E in Hl.
      case_decide; [done|].
      apply bind_OutOfFuel in Hs as [Hs|([??] & _ & ?)]; [|done].
      apply IHe in Hs; [done|lia].
    + destruct (skip_ws s) as [|d r1] eqn:E; [done|].
      pose proof (skip_ws_length s) as Hl. rewrite E in Hl.
      case_decide; [done|].
      apply bind_OutOfFuel in Hs as [Hs|([??] & _ & ?)]; [|done].
      apply IHm in Hs; [done|lia].
    + apply bind_OutOfFuel in Hs as [Hs|(? & _ & ?)]; [|done].
      by apply expect_fuel in Hs.
    + apply bind_OutOfFuel in Hs as [Hs|(? & _ & ?)]; [|done].
      by apply expect_fuel in Hs.
    + apply bind_OutOfFuel in Hs as [Hs|(? & _ & ?)]; [|done].
      by apply expect_fuel in Hs.
    + apply bind_OutOfFuel in Hs as [Hs|([??] & _ & ?)]; [|done].
      by apply parse_number_fuel in Hs.
  - cbn [parse_elements] in Hs.
    apply bind_OutOfFuel in Hs as [Hs|([v r0] & Hv & Hs)].
    { apply IHv in Hs; [done|lia]. }
    apply (proj1 (parse_length fuel)) in Hv.
    destruct (skip_ws r0) as [|c r1] eqn:E; [done|].
    apply skip_ws_cons_length in E.
    repeat case_decide; try done.
    apply bind_OutOfFuel in Hs as [Hs|([??] & _ & ?)]; [|done].
    pose proof (skip_ws_length r1). apply IHe in Hs; [done|lia].
  - cbn [parse_members] in Hs. destruct s as [|c s]; [done|]. simpl in Hf.
    case_decide; [|done].
    apply bind_OutOfFuel in Hs as [Hs|([key r1] & Hk & Hs)].
    { by apply parse_string_fuel in Hs. }
    apply parse_string_length in Hk.
    destruct (skip_ws r1) as [|d r2] eqn:E1; [done|].
    apply skip_ws_cons_length in E1. case_decide; [|done].
    pose proof (skip_ws_length r2).
    apply bind_OutOfFuel in Hs as [Hs|([v r3] & Hv & Hs)].
    { apply IHv in Hs; [done|lia]. }
    apply (proj1 (parse_length fuel)) in Hv.
    destruct (skip_ws r3) as [|e r4] eqn:E3; [done|].
    apply skip_ws_cons_length in E3.
    repeat case_decide; try done.
    apply bind_OutOfFuel in Hs as [Hs|([??] & _ & ?)]; [|done].
    pose proof (skip_ws_length r4). apply IHm in Hs; [done|lia].
Qed.

Lemma JSON_parse_fuel s : JSON_parse s ≠ OutOfFuel.
Proof.
  unfold JSON_parse. intros Hs.
  apply bind_OutOfFuel in Hs as [Hs|([v r] & _ & Hs)].
  - apply (proj1 (parse_fuel _)) in Hs; [done|].
    pose proof (skip_ws_length s). lia.
  - by destruct (skip_ws r).
Qed.

(** So [loadTasks] always takes one of the three paths of the source. *)
Lemma load_effect_modelled read_ok stored :
  load_effect read_ok stored ≠ Unmodelled.
Proof.
  unfold load_effect. destruct read_ok; [|done].
  destruct stored as [s|]; [|done].
  pose proof (JSON_parse_fuel s). by destruct (JSON_parse s).
Qed.

(** ** [trim] *)

Section trim.
Implicit Types (s r : list N) (c : N).

Lemma trimStart_head s c r :
  trimStart s = c :: r → is_white_space c = false.
Proof.
  induction s as [|d s IH]; [done|]. cbn [trimStart].
  destruct (is_white_space d) eqn:Hd; [done|]. by intros [= -> _].
Qed.

Lemma trimStart_nil s : trimStart s = [] ↔ whitespace_only s.
Proof.
  unfold whitespace_only. induction s as [|d s IH]; [done|].
  cbn [trimStart]. rewrite Forall_cons.
  destruct (is_white_space d).
  - rewrite IH. tauto.
  - split; [done|]. by intros [? _].
Qed.

Lemma trimStart_whitespace_only s :
  whitespace_only (trimStart s) → trimStart s = [].
Proof.
  destruct (trimStart s) as [|c r] eqn:E; [done|].
  apply trimStart_head in E. intros [Hc _]%Forall_cons. congruence.
Qed.

Lemma whitespace_only_reverse s :
  whitespace_only (reverse s) ↔ whitespace_only s.
Proof. unfold whitespace_only. by rewrite Forall_reverse. Qed.

Lemma trimEnd_nil s : trimEnd s = [] ↔ whitespace_only s.
Proof.
  unfold trimEnd. rewrite <-whitespace_only_reverse, <-trimStart_nil.
  split; [|by intros ->].
  intros E%(f_equal reverse). by rewrite reverse_involutive in E.
Qed.

Lemma trimStart_sublist s : whitespace_only s → whitespace_only (trimStart s).
Proof. intros Hs. apply trimStart_nil in Hs as ->. constructor. Qed.

(** [s.trim() === ''] holds exactly for the strings of white space. *)
Lemma trim_nil s : trim s = [] ↔ whitespace_only s.
Proof.
  unfold trim. rewrite trimEnd_nil. split.
  - intros H%trimStart_whitespace_only. by apply trimStart_nil.
  - apply trimStart_sublist.
Qed.

Lemma trim_whitespace_only s : whitespace_only (trim s) → trim s = [].
Proof.
  unfold trim, trimEnd. rewrite whitespace_only_reverse.
  intros ->%trimStart_whitespace_only. done.
Qed.

Lemma trimStart_id s c r :
  s = c :: r → is_white_space c = false → trimStart s = s.
Proof. intros -> Hc. cbn [trimStart]. by rewrite Hc. Qed.

Lemma trimStart_idemp s : trimStart (trimStart s) = trimStart s.
Proof.
  destruct (trimStart s) as [|c r] eqn:E; [done|].
  eapply trimStart_id; [done|]. by eapply trimStart_head.
Qed.
End trim.

(** ** The handlers on the task list *)

Section handlers.
Implicit Types (a : App) (t : Task) (i s : list N) (ts : list Task).

Lemma toggle_id i t : id (toggle i t) = id t.
Proof. unfold toggle. by case_decide. Qed.

Lemma toggle_text i t : text (toggle i t) = text t.
Proof. unfold toggle. by case_decide. Qed.

Lemma toggle_other i t : id t ≠ i → toggle i t = t.
Proof. intros. unfold toggle. by rewrite decide_False. Qed.

Lemma toggle_same t :
  toggle (id t) t
  = {| id := id t; text := text t; completed := negb (completed t) |}.
Proof. unfold toggle. by rewrite decide_True. Qed.

Lemma toggle_toggle i t : toggle i (toggle i t) = t.
Proof.
  destruct (decide (id t = i)) as [<-|Hne].
  - rewrite toggle_same. unfold toggle. cbn [id text completed].
    rewrite decide_True by done. rewrite negb_involutive. by destruct t.
  - rewrite (toggle_other i t) by done. by apply toggle_other.
Qed.

Lemma toggle_absent i ts : i ∉ (id <$> ts) → toggle i <$> ts = ts.
Proof.
  induction ts as [|t ts IH]; [done|]. rewrite fmap_cons, not_elem_of_cons.
  intros [Ht Hts]. rewrite fmap_cons, IH, toggle_other by done. done.
Qed.

Lemma delete_absent i ts :
  i ∉ (id <$> ts) → filter (λ task, id task ≠ i) ts = ts.
Proof.
  induction ts as [|t ts IH]; [done|]. rewrite fmap_cons, not_elem_of_cons.
  intros [Ht Hts]. rewrite filter_cons_True by done. by rewrite IH.
Qed.

Lemma delete_removes i ts :
  i ∉ (id <$> filter (λ task, id task ≠ i) ts).
Proof.
  rewrite list_elem_of_fmap. intros (t & -> & Ht).
  apply list_elem_of_filter in Ht as [Hne _]. done.
Qed.

Lemma setTasks_same a : setTasks (tasks a) a = a.
Proof. by destruct a. Qed.

Lemma setTasks_setTasks ts ts' a :
  setTasks ts (setTasks ts' a) = setTasks ts a.
Proof. done. Qed.
End handlers.

(** C3: for an input whose trimmed form is not empty, [addTask] appends
    exactly one task at the end of the list and leaves the tasks before it
    as they were; the new task is not completed, its text is the trimmed
    input, and [totalCount] grows by exactly one. *)
Theorem addTask_appends_one (s : list N) (now : Z) (a : App) :
  trim s ≠ [] →
  ∃ a', run [ChangeText s; AddTask now] a = Some a'
    ∧ tasks a'
      = tasks a ++ [{| id := toString now; text := trim s; completed := false |}]
    ∧ totalCount a' = S (totalCount a).
Proof.
  intros Hs. eexists. split; [reflexivity|].
  unfold addTask, totalCount. cbn [inputText setInputText].
  rewrite decide_False by done. cbn [tasks setInputText setTasks].
  split; [done|]. rewrite length_app. simpl. lia.
Qed.

Lemma addTask_appends_one_witness :
  trim (lit "  Buy milk ") ≠ []
  ∧ ∃ a', run [ChangeText (lit "  Buy milk "); AddTask 1700000000000] fresh
          = Some a'
    ∧ tasks a'
      = tasks fresh ++ [{| id := toString 1700000000000;
                           text := trim (lit "  Buy milk ");
                           completed := false |}]
    ∧ totalCount a' = S (totalCount fresh).
Proof.
  split; [by vm_compute|].
  apply (addTask_appends_one (lit "  Buy milk ") 1700000000000 fresh).
  by vm_compute.
Defined.

(** C5: for an input whose trimmed form is empty, [addTask] shows the
    "Empty Task" alert and leaves the task list, and the rest of the state,
    as it was. *)
Theorem addTask_rejects_blank (s : list N) (now : Z) (a : App) :
  trim s = [] →
  ∃ a', run [ChangeText s; AddTask now] a = Some a'
    ∧ tasks a' = tasks a
    ∧ alerts a'
      = alerts a ++ [(lit "Empty Task", lit "Please enter a task description")]
    ∧ storage a' = storage a
    ∧ console a' = console a.
Proof.
  intros Hs. eexists. split; [reflexivity|].
  unfold addTask. cbn [inputText setInputText].
  rewrite decide_True by done. done.
Qed.

Lemma addTask_rejects_blank_witness :
  trim (lit "   ") = []
  ∧ ∃ a', run [ChangeText (lit "   "); AddTask 1700000000000] fresh = Some a'
    ∧ tasks a' = tasks fresh
    ∧ alerts a'
      = alerts fresh
        ++ [(lit "Empty Task", lit "Please enter a task description")]
    ∧ storage a' = storage fresh
    ∧ console a' = console fresh.
Proof.
  split; [by vm_compute|].
  apply (addTask_rejects_blank (lit "   ") 1700000000000 fresh).
  by vm_compute.
Defined.

(** C6: toggling the id of a task of the store flips its [completed] flag
    at the position where the task is, and toggling the same id twice gives
    back the state the component started from. *)
Theorem toggleTask_flips_in_place (a : App) (k : nat) (t : Task) :
  tasks a !! k = Some t →
  tasks (toggleTask (id t) a) !! k
    = Some {| id := id t; text := text t; completed := negb (completed t) |}
  ∧ completed <$> tasks (toggleTask (id t) (toggleTask (id t) a)) !! k
    = Some (completed t)
  ∧ toggleTask (id t) (toggleTask (id t) a) = a.
Proof.
  intros Hk.
  assert (toggleTask (id t) (toggleTask (id t) a) = a) as Htwice.
  { unfold toggleTask. cbn [tasks setTasks]. rewrite setTasks_setTasks.
    rewrite <-list_fmap_compose.
    rewrite (list_fmap_ext (toggle (id t) ∘ toggle (id t)) Datatypes.id (tasks a))
      by (intros; apply toggle_toggle).
    rewrite list_fmap_id. apply setTasks_same. }
  split_and!; [|by rewrite Htwice, Hk|done].
  unfold toggleTask. cbn [tasks setTasks].
  by rewrite list_lookup_fmap, Hk, <-toggle_same.
Qed.

Lemma toggleTask_flips_in_place_witness :
  let t := {| id := lit "1700000000999"; text := lit "Walk dog";
              completed := false |} in
  tasks sample !! 1%nat = Some t
  ∧ tasks (toggleTask (id t) sample) !! 1%nat
    = Some {| id := id t; text := text t; completed := negb (completed t) |}
  ∧ completed <$> tasks (toggleTask (id t) (toggleTask (id t) sample)) !! 1%nat
    = Some (completed t)
  ∧ toggleTask (id t) (toggleTask (id t) sample) = sample.
Proof.
  intros t. split; [reflexivity|].
  apply (toggleTask_flips_in_place sample 1 t). reflexivity.
Defined.

(** C7: toggling or deleting an id that no task of the store carries
    raises nothing and leaves the state as it is; so after [deleteTask i], a
    [toggleTask i] or a second [deleteTask i] changes nothing. *)
Theorem absent_id_is_noop (i : list N) (a : App) :
  (i ∉ (id <$> tasks a) →
     run [ToggleTask i] a = Some a ∧ run [DeleteTask i] a = Some a)
  ∧ run [DeleteTask i; ToggleTask i] a = run [DeleteTask i] a
  ∧ run [DeleteTask i; DeleteTask i] a = run [DeleteTask i] a.
Proof.
  assert (∀ b, i ∉ (id <$> tasks b) →
               toggleTask i b = b ∧ deleteTask i b = b) as Hnoop.
  { intros b Hb. unfold toggleTask, deleteTask.
    rewrite toggle_absent, delete_absent by done.
    by rewrite setTasks_same. }
  split_and!.
  - intros Hi. cbn [run step]. by destruct (Hnoop a Hi) as [-> ->].
  - cbn [run step]. f_equal. apply Hnoop. apply delete_removes.
  - cbn [run step]. f_equal. apply Hnoop. apply delete_removes.
Qed.

Lemma absent_id_is_noop_witness :
  (lit "42" ∉ (id <$> tasks sample))
  ∧ run [ToggleTask (lit "42")] sample = Some sample
  ∧ run [DeleteTask (lit "42")] sample = Some sample.
Proof.
  assert (lit "42" ∉ (id <$> tasks sample)) as Hi.
  { apply (bool_decide_unpack _). by vm_compute. }
  split; [exact Hi|].
  exact (proj1 (absent_id_is_noop (lit "42") sample) Hi).
Defined.

(** C10: [toggleTask i] keeps the number of tasks, their order, and the
    [id] and [text] of every task; a task whose id differs from [i] is
    unchanged in every field; nothing but the task list changes. *)
Theorem toggleTask_frame (i : list N) (a : App) :
  length (tasks (toggleTask i a)) = length (tasks a)
  ∧ id <$> tasks (toggleTask i a) = id <$> tasks a
  ∧ text <$> tasks (toggleTask i a) = text <$> tasks a
  ∧ (∀ k t, tasks a !! k = Some t → id t ≠ i →
       tasks (toggleTask i a) !! k = Some t)
  ∧ (∀ k t', tasks (toggleTask i a) !! k = Some t' →
       ∃ t, tasks a !! k = Some t ∧ id t' = id t ∧ text t' = text t
            ∧ (completed t' ≠ completed t → id t = i))
  ∧ toggleTask i a = setTasks (tasks (toggleTask i a)) a.
Proof.
  unfold toggleTask. cbn [tasks setTasks]. split_and!.
  - by rewrite length_fmap.
  - rewrite <-list_fmap_compose. apply list_fmap_ext.
    intros ???. apply toggle_id.
  - rewrite <-list_fmap_compose. apply list_fmap_ext.
    intros ???. apply toggle_text.
  - intros k t Hk Hne. rewrite list_lookup_fmap, Hk. cbn [fmap option_fmap option_map].
    by rewrite toggle_other.
  - intros k t'. rewrite list_lookup_fmap.
    destruct (tasks a !! k) as [t|]; [|done]. intros [= <-].
    exists t. split_and!; [done|apply toggle_id|apply toggle_text|].
    intros Hc. destruct (decide (id t = i)); [done|].
    by rewrite toggle_other in Hc.
  - done.
Qed.

Lemma toggleTask_frame_witness :
  let t := {| id := lit "1700000000999"; text := lit "Walk dog";
              completed := false |} in
  (tasks sample !! 1%nat = Some t ∧ id t ≠ lit "1700000000000")
  ∧ tasks (toggleTask (lit "1700000000000") sample) !! 1%nat = Some t.
Proof.
  intros t.
  assert (tasks sample !! 1%nat = Some t) as Hk by reflexivity.
  assert (id t ≠ lit "1700000000000") as Hne.
  { apply (bool_decide_unpack _). by vm_compute. }
  split; [by split|].
  exact (proj1 (proj2 (proj2 (proj2
           (toggleTask_frame (lit "1700000000000") sample)))) 1%nat t Hk Hne).
Defined.

(** C2: what [saveTasks] writes, [loadTasks] reads back: the stored text
    denotes the saved task list, and saving, restarting the component and
    loading gives a task list equal to the saved one, with the same ids,
    texts and flags in the same order. *)
Theorem save_load_roundtrip (a : App) :
  stored_tasks (storage (saveTasks true a)) = Some (tasks a)
  ∧ ∃ a', run [SaveTasks true; Mount; LoadTasks true] a = Some a'
      ∧ tasks a' = tasks a.
Proof.
  split.
  - cbn [saveTasks storage setItem stored_tasks].
    by rewrite JSON_parse_stringify, as_tasks_json.
  - cbn [run step saveTasks]. unfold loadTasks, load_effect.
    cbn [storage setItem setTasks setInputText].
    rewrite JSON_parse_stringify, as_tasks_json. cbn [fmap option_fmap option_map].
    eexists. split; [reflexivity|]. done.
Qed.

(** ** Invariants of the runs *)

Section invariant.
Variable P : list Task → Prop.
Hypothesis P_nil : P [].
Hypothesis P_toggle : ∀ i ts, P ts → P (toggle i <$> ts).
Hypothesis P_delete : ∀ i ts, P ts → P (filter (λ task, id task ≠ i) ts).

(** In a state whose snapshot was written by [saveTasks], [loadTasks]
    installs the task list of the snapshot or leaves the list alone. *)
Lemma loadTasks_inv read_ok a :
  store_inv P a →
  ∃ a', loadTasks read_ok a = Some a' ∧ store_inv P a'.
Proof.
  intros Ha. pose proof Ha as [Hts Hst]. unfold loadTasks, load_effect.
  destruct read_ok; [|by eexists].
  destruct (storage a) as [s|] eqn:Es; [|by eexists].
  destruct (Hst s eq_refl) as (ts & -> & Hts').
  rewrite JSON_parse_stringify, as_tasks_json.
  eexists; split; [reflexivity|]. split; [done|].
  cbn [storage setTasks]. by rewrite Es.
Qed.

Lemma saveTasks_inv write_ok a : store_inv P a → store_inv P (saveTasks write_ok a).
Proof.
  intros [Hts Hst]. destruct write_ok; [|done].
  split; [done|]. intros s [= <-]. by exists (tasks a).
Qed.

(** Every event but [AddTask] keeps the invariant and has a next state. *)
Lemma step_inv e a :
  (∀ now, e ≠ AddTask now) → store_inv P a →
  ∃ a', step e a = Some a' ∧ store_inv P a'.
Proof.
  intros He Ha. destruct e as [|r|w|s|now|i|i]; cbn [step].
  - eexists; split; [done|]. destruct Ha. by split.
  - by apply loadTasks_inv.
  - eexists; split; [done|]. by apply saveTasks_inv.
  - eexists; split; [done|]. destruct Ha. by split.
  - by destruct (He now).
  - eexists; split; [done|]. destruct Ha. split; [by apply P_toggle|done].
  - eexists; split; [done|]. destruct Ha. split; [by apply P_delete|done].
Qed.
End invariant.

Lemma store_inv_mono (P Q : list Task → Prop) a :
  (∀ ts, P ts → Q ts) → store_inv P a → store_inv Q a.
Proof.
  intros HPQ [Hts Hst]. split; [by apply HPQ|].
  intros s Hs. destruct (Hst s Hs) as (ts & -> & ?). exists ts. auto.
Qed.

Lemma fresh_inv (P : list Task → Prop) : P [] → store_inv P fresh.
Proof. by split. Qed.

Lemma AddTask_or_not e : (∃ now, e = AddTask now) ∨ (∀ now, e ≠ AddTask now).
Proof. destruct e; eauto. Qed.

(** *** The texts of the tasks *)

Lemma addTask_text_ok now a :
  store_inv (Forall text_ok) a → store_inv (Forall text_ok) (addTask now a).
Proof.
  intros [Hts Hst]. unfold addTask. case_decide; [done|].
  split; [|done]. cbn [tasks setInputText setTasks].
  apply Forall_app. split; [done|]. constructor; [|done].
  split; [done|]. by intros ?%trim_whitespace_only.
Qed.

Lemma run_text_ok es a :
  store_inv (Forall text_ok) a →
  ∃ a', run es a = Some a' ∧ store_inv (Forall text_ok) a'.
Proof.
  revert a. induction es as [|e es IH]; intros a Ha; [by eexists|].
  cbn [run].
  assert (∃ a', step e a = Some a' ∧ store_inv (Forall text_ok) a')
    as (a' & -> & Ha').
  { destruct (AddTask_or_not e) as [[now ->]|Hne].
    - eexists; split; [done|]. by apply addTask_text_ok.
    - apply step_inv; [done| | |done|done].
      + intros i ts Hts. apply Forall_fmap. eapply Forall_impl; [done|].
        intros t [??]. unfold text_ok, compose. by rewrite toggle_text.
      + intros i ts Hts. rewrite Forall_forall in *.
        intros t [_ Ht]%list_elem_of_filter. by apply Hts. }
  by apply IH.
Qed.

(** Every run from first installation has a result: what [loadTasks] finds
    in the storage was written by [saveTasks], so it is a [Task[]]. *)
Lemma run_fresh_total es : is_Some (run es fresh).
Proof.
  destruct (run_text_ok es fresh) as (a' & -> & _); [by apply fresh_inv|done].
Qed.

(** C4: in every state that a run of the application reaches from first
    installation (mounting, loading a stored snapshot, saving, typing,
    adding, toggling, deleting, in any order), the text of every task of
    the store is neither empty nor white space only. *)
Theorem reachable_text_ok (a : App) :
  reachable a →
  ∀ t, t ∈ tasks a → text t ≠ [] ∧ ¬ whitespace_only (text t).
Proof.
  intros [es Hes] t Ht.
  destruct (run_text_ok es fresh) as (a' & Ha' & [Hts _]).
  { by apply fresh_inv. }
  simplify_eq. rewrite Forall_forall in Hts. by apply Hts.
Qed.

(** *** The ids of the tasks *)

Global Instance lit_inj : Inj (=) (=) lit.
Proof.
  intros s1 s2 Hs. unfold lit in Hs.
  rewrite <-(String.string_of_list_ascii_of_string s1).
  rewrite <-(String.string_of_list_ascii_of_string s2). f_equal.
  revert Hs. generalize (String.list_ascii_of_string s1) (String.list_ascii_of_string s2).
  induction l as [|c l IH]; intros [|c' l']; try done.
  rewrite !fmap_cons. intros [= Hc Hl]. f_equal; [|by apply IH].
  by rewrite <-(ascii_N_embedding c), <-(ascii_N_embedding c'), Hc.
Qed.

Global Instance toString_inj : Inj (=) (=) toString.
Proof. intros z1 z2 Hz. unfold toString in Hz. by apply (inj lit), (inj pretty) in Hz. Qed.

Lemma ids_before_mono b b' ts : (b ≤ b')%Z → ids_before b ts → ids_before b' ts.
Proof.
  intros Hb [Hnd Hts]. split; [done|]. eapply Forall_impl; [done|].
  intros t (z & ? & ?). exists z. split; [lia|done].
Qed.

Lemma ids_before_toggle b i ts : ids_before b ts → ids_before b (toggle i <$> ts).
Proof.
  intros [Hnd Hts]. split.
  - rewrite <-list_fmap_compose.
    rewrite (list_fmap_ext (id ∘ toggle i) id ts); [done|].
    intros ???. apply toggle_id.
  - apply Forall_fmap. eapply Forall_impl; [done|].
    intros t (z & ? & ?). exists z. unfold compose. by rewrite toggle_id.
Qed.

Lemma ids_before_delete b i ts :
  ids_before b ts → ids_before b (filter (λ task, id task ≠ i) ts).
Proof.
  intros [Hnd Hts]. split.
  - induction ts as [|t ts IH]; [done|].
    rewrite fmap_cons, NoDup_cons in Hnd. destruct Hnd as [Ht Hnd].
    apply Forall_cons in Hts as [_ Hts]. rewrite filter_cons.
    case_decide; [|by apply IH].
    rewrite fmap_cons, NoDup_cons. split; [|by apply IH].
    rewrite list_elem_of_fmap in *. intros (t' & Hid & Ht').
    apply Ht. exists t'. split; [done|].
    by apply list_elem_of_filter in Ht' as [_ ?].
  - rewrite Forall_forall in *.
    intros t [_ Ht]%list_elem_of_filter. by apply Hts.
Qed.

Lemma addTask_ids_before b now a :
  (b ≤ now)%Z →
  store_inv (ids_before b) a → store_inv (ids_before (now + 1)) (addTask now a).
Proof.
  intros Hb Ha.
  apply (store_inv_mono _ (ids_before (now + 1))) in Ha as Ha';
    [|intros ts; apply ids_before_mono; lia].
  unfold addTask. case_decide; [done|].
  destruct Ha as [[Hnd Hts] _], Ha' as [[_ Hts'] Hst].
  split; [|done]. cbn [tasks setInputText setTasks]. split.
  - rewrite fmap_app, NoDup_app. split_and!; [done| |apply NoDup_singleton].
    intros x Hx. cbn [fmap list_fmap id]. rewrite list_elem_of_singleton. intros ->.
    apply list_elem_of_fmap in Hx as (t & Ht & Hin).
    rewrite Forall_forall in Hts. destruct (Hts t Hin) as (z & Hz & Hid).
    rewrite Hid in Ht. apply (inj toString) in Ht. lia.
  - apply Forall_app. split; [done|]. constructor; [|done].
    exists now. split; [lia|done].
Qed.

Lemma run_ids_before es b a :
  store_inv (ids_before b) a → increasing_from b (clock_readings es) →
  ∃ a' b', run es a = Some a' ∧ store_inv (ids_before b') a'.
Proof.
  revert b a. induction es as [|e es IH]; intros b a Ha Hes; [by eexists _, _|].
  cbn [run]. destruct (AddTask_or_not e) as [[now ->]|Hne].
  - cbn [clock_readings increasing_from] in Hes. destruct Hes as [Hb Hes].
    cbn [step]. eapply IH; [|done]. by apply (addTask_ids_before b).
  - destruct (step_inv (ids_before b)) with (e := e) (a := a)
      as (a' & -> & Ha');
      [split; constructor|intros; by apply ids_before_toggle
      |intros; by apply ids_before_delete|done..|].
    eapply IH; [done|]. by destruct e; try done; destruct (Hne now).
Qed.

(** X9: along a run in which every [AddTask] reads a later clock value
    than the one before it, the ids of the store are pairwise different. *)
Lemma ids_unique_if_clock_increases es b a :
  increasing_from b (clock_readings es) → run es fresh = Some a →
  NoDup (id <$> tasks a).
Proof.
  intros Hes Hrun.
  destruct (run_ids_before es b fresh) as (a' & b' & Ha' & [[Hnd _] _]);
    [|done|by simplify_eq].
  apply fresh_inv. split; constructor.
Qed.

Lemma reachable_text_ok_witness :
  reachable (setInputText [] (setTasks (tasks sample) fresh))
  ∧ ∀ t, t ∈ tasks (setInputText [] (setTasks (tasks sample) fresh)) →
         text t ≠ [] ∧ ¬ whitespace_only (text t).
Proof.
  assert (reachable (setInputText [] (setTasks (tasks sample) fresh))) as Hr.
  { exists [ChangeText (lit "Buy milk"); AddTask 1700000000000;
            ChangeText (lit "Walk dog"); AddTask 1700000000999;
            ToggleTask (lit "1700000000000")].
    by vm_compute. }
  split; [exact Hr|].
  exact (reachable_text_ok _ Hr).
Defined.

(** C1 on the code: two [addTask] calls that read the same value of
    [Date.now()] give two tasks with one id, so the ids of a reachable store
    are not always pairwise different. *)
Theorem same_millisecond_ids_collide :
  ∃ a, run double_add fresh = Some a
    ∧ reachable a
    ∧ id <$> tasks a = [lit "1700000000000"; lit "1700000000000"]
    ∧ text <$> tasks a = [lit "Buy milk"; lit "Walk dog"]
    ∧ ¬ NoDup (id <$> tasks a).
Proof.
  eexists. split; [by vm_compute|]. split; [exists double_add; by vm_compute|].
  cbn [tasks]. split_and!; [by vm_compute..|].
  intros Hnd. apply NoDup_cons in Hnd as [Hin _].
  apply Hin. apply list_elem_of_here.
Qed.

(** The header counts what it says: the completed tasks and all tasks. *)
Lemma summary_counts a :
  summary a
  = (length (filter (λ task, completed task = true) (tasks a)),
     length (tasks a)).
Proof. done. Qed.

(** With two different clock readings the scenario gives 1 of 2. *)
Lemma scenario_distinct_clock now1 now2 :
  now1 ≠ now2 →
  summary <$> run (scenario now1 now2) fresh = Some (1%nat, 2%nat).
Proof.
  intros Hne. unfold scenario. cbn [run step fmap option_fmap option_map].
  unfold summary, completedCount, totalCount, toggleTask, addTask.
  cbn [inputText setInputText setTasks tasks fresh app].
  rewrite !decide_False by (by vm_compute).
  cbn [inputText setInputText setTasks tasks fresh app fmap list_fmap].
  unfold toggle. cbn [id text completed].
  rewrite decide_True by done.
  rewrite decide_False by (by intros ?%(inj toString)).
  done.
Qed.

(** C8 on the code: when both tasks of the scenario are added within one
    millisecond they share their id, [toggleTask] flips both, and the
    summary is 2 of 2 instead of 1 of 2. *)
Theorem scenario_same_millisecond :
  summary <$> run (scenario 1700000000000 1700000000000) fresh
  = Some (2%nat, 2%nat).
Proof. by vm_compute. Qed.

(** C9 as stated fails on the stored text [[1]]: it is no task sequence,
    yet [loadTasks] passes its value to [setTasks], so the store does not
    stay empty, and nothing is logged. *)
Lemma load_accepts_any_json :
  stored_tasks (Some (lit "[1]")) = None
  ∧ load_effect true (Some (lit "[1]")) = CallSetTasks (JArr [JNum (lit "1")])
  ∧ ¬ (∀ stored, stored_tasks stored = None →
         keeps_tasks (load_effect true stored) = true
         ∧ (stored ≠ None → logs_failure (load_effect true stored) = true)).
Proof.
  split_and!; [by vm_compute..|].
  intros H. destruct (H (Some (lit "[1]"))) as [Hk _]; [by vm_compute|].
  by vm_compute in Hk.
Qed.

(** C9, amended: when the stored value is absent or is not a JSON text,
    mounting and loading ends with an empty store and raises nothing; the
    syntax error is logged once, an absent value logs nothing. *)
Theorem load_absent_or_invalid_json (a : App) :
  (storage a = None ∨ ∃ s, storage a = Some s ∧ JSON_parse s = SyntaxError) →
  ∃ a', run [Mount; LoadTasks true] a = Some a'
    ∧ tasks a' = []
    ∧ storage a' = storage a
    ∧ console a'
      = console a ++ (if storage a is None then [] else [ErrorLoadingTasks]).
Proof.
  intros Hst. cbn [run step]. unfold loadTasks, load_effect.
  cbn [storage setInputText setTasks].
  destruct Hst as [Hs|(s & Hs & Hp)]; rewrite Hs; [|rewrite Hp];
    (eexists; split; [reflexivity|]); cbn [tasks storage console
      console_error setInputText setTasks]; rewrite ?Hs, ?app_nil_r; done.
Qed.

Lemma load_absent_or_invalid_json_witness :
  (storage corrupted = None
   ∨ ∃ s, storage corrupted = Some s ∧ JSON_parse s = SyntaxError)
  ∧ ∃ a', run [Mount; LoadTasks true] corrupted = Some a'
    ∧ tasks a' = []
    ∧ storage a' = storage corrupted
    ∧ console a'
      = console corrupted
        ++ (if storage corrupted is None then [] else [ErrorLoadingTasks]).
Proof.
  assert (storage corrupted = None
          ∨ ∃ s, storage corrupted = Some s ∧ JSON_parse s = SyntaxError) as H.
  { right. exists (lit "{oops"). split; by vm_compute. }
  split; [exact H|].
  exact (load_absent_or_invalid_json corrupted H).
Defined.

(** ** More on the handlers *)

Section unique_ids.
Implicit Types (a : App) (t : Task) (i : list N) (ts : list Task) (k : nat).

Lemma lookup_id_elem ts k t : ts !! k = Some t → id t ∈ (id <$> ts).
Proof.
  intros Hk. apply list_elem_of_fmap. exists t. split; [done|].
  by eapply list_elem_of_lookup_2.
Qed.

(** With pairwise different ids, mapping [toggle] over the list changes the
    task at one index only. *)
Lemma toggle_unique ts k t :
  NoDup (id <$> ts) → ts !! k = Some t →
  toggle (id t) <$> ts = <[k := flipped t]> ts.
Proof.
  revert k. induction ts as [|h ts IH]; intros k Hnd Hk; [done|].
  rewrite fmap_cons, NoDup_cons in Hnd. destruct Hnd as [Hh Hnd].
  destruct k as [|k]; simpl in Hk.
  - simplify_eq. rewrite fmap_cons, toggle_same, toggle_absent by done. done.
  - rewrite fmap_cons, (IH k) by done. rewrite toggle_other; [done|].
    intros E. apply Hh. rewrite E. by eapply lookup_id_elem.
Qed.

(** With pairwise different ids, filtering an id out deletes one index. *)
Lemma delete_unique ts k t :
  NoDup (id <$> ts) → ts !! k = Some t →
  filter (λ task, id task ≠ id t) ts = delete k ts.
Proof.
  revert k. induction ts as [|h ts IH]; intros k Hnd Hk; [done|].
  rewrite fmap_cons, NoDup_cons in Hnd. destruct Hnd as [Hh Hnd].
  destruct k as [|k]; simpl in Hk.
  - simplify_eq. rewrite filter_cons_False by (by intros []).
    by rewrite delete_absent.
  - rewrite filter_cons_True, (IH k) by
      (done || intros E; apply Hh; rewrite E; by eapply lookup_id_elem).
    done.
Qed.

Lemma completed_count_flip ts k t :
  ts !! k = Some t →
  let n := length (filter (λ task, completed task = true) ts) in
  let n' := length (filter (λ task, completed task = true) (<[k := flipped t]> ts)) in
  if completed t then n = S n' else n' = S n.
Proof.
  revert k. induction ts as [|h ts IH]; intros k Hk; [done|].
  destruct k as [|k]; simpl in Hk.
  - simplify_eq. change (<[0%nat:=flipped t]> (t :: ts)) with (flipped t :: ts).
    rewrite !filter_cons.
    unfold flipped. cbn [completed]. destruct (completed t); cbn; done.
  - specialize (IH k Hk).
    change (<[S k:=flipped t]> (h :: ts)) with (h :: <[k:=flipped t]> ts).
    rewrite !filter_cons.
    cbn zeta in *. destruct (completed t), (decide (completed h = true)).
    all: cbn [length]; lia.
Qed.
End unique_ids.

(** X1: the header never counts more completed tasks than tasks; the two
    counters are equal exactly when every task is completed, and the first
    is zero exactly when none is. *)
Theorem completedCount_bounds (a : App) :
  (completedCount a ≤ totalCount a)%nat
  ∧ (completedCount a = totalCount a
     ↔ Forall (λ t, completed t = true) (tasks a))
  ∧ (completedCount a = 0%nat
     ↔ Forall (λ t, completed t = false) (tasks a)).
Proof.
  unfold completedCount, totalCount.
  induction (tasks a) as [|t ts (IH1 & IH2 & IH3)]; [done|].
  rewrite filter_cons, !Forall_cons. destruct (completed t) eqn:Ht.
  - rewrite decide_True by done. cbn [length]. split_and!; [lia| |].
    + rewrite <-IH2. split; [intros [= ?]; done|intros [_ ->]; done].
    + split; [done|intros [? _]; done].
  - rewrite decide_False by done. cbn [length]. split_and!; [lia| |].
    + split; [lia|intros [? _]; done].
    + rewrite <-IH3. tauto.
Qed.


(** X3: when the ids of the store are pairwise different, deleting the id
    of the task at index [k] removes that one task and no other. *)
Theorem deleteTask_unique_id (a : App) (k : nat) (t : Task) :
  NoDup (id <$> tasks a) → tasks a !! k = Some t →
  tasks (deleteTask (id t) a) = delete k (tasks a)
  ∧ S (totalCount (deleteTask (id t) a)) = totalCount a.
Proof.
  intros Hnd Hk. unfold deleteTask, totalCount. cbn [tasks setTasks].
  rewrite (delete_unique _ k) by done. split; [done|].
  rewrite length_delete by done.
  apply lookup_lt_Some in Hk. lia.
Qed.

Lemma deleteTask_unique_id_witness :
  (NoDup (id <$> tasks sample)
   ∧ tasks sample !! 0%nat
     = Some {| id := lit "1700000000000"; text := lit "Buy milk";
               completed := true |})
  ∧ tasks (deleteTask (lit "1700000000000") sample)
    = delete 0%nat (tasks sample)
  ∧ S (totalCount (deleteTask (lit "1700000000000") sample))
    = totalCount sample.
Proof.
  assert (NoDup (id <$> tasks sample)) as Hnd.
  { apply (bool_decide_unpack _). by vm_compute. }
  split; [by split|].
  exact (deleteTask_unique_id sample 0 _ Hnd eq_refl).
Defined.

(** X4: when the ids of the store are pairwise different, toggling the id
    of the task at index [k] replaces that one task by its flipped copy, and
    [completedCount] moves by exactly one. *)
Theorem toggleTask_unique_id (a : App) (k : nat) (t : Task) :
  NoDup (id <$> tasks a) → tasks a !! k = Some t →
  tasks (toggleTask (id t) a) = <[k := flipped t]> (tasks a)
  ∧ (if completed t
     then completedCount a = S (completedCount (toggleTask (id t) a))
     else completedCount (toggleTask (id t) a) = S (completedCount a))
  ∧ totalCount (toggleTask (id t) a) = totalCount a.
Proof.
  intros Hnd Hk. unfold toggleTask, completedCount, totalCount.
  cbn [tasks setTasks]. rewrite (toggle_unique _ k) by done.
  split_and!; [done| |by rewrite length_insert].
  by apply completed_count_flip.
Qed.

Lemma toggleTask_unique_id_witness :
  let t := {| id := lit "1700000000999"; text := lit "Walk dog";
              completed := false |} in
  (NoDup (id <$> tasks sample) ∧ tasks sample !! 1%nat = Some t)
  ∧ tasks (toggleTask (id t) sample) = <[1%nat := flipped t]> (tasks sample)
  ∧ completedCount (toggleTask (id t) sample) = S (completedCount sample)
  ∧ totalCount (toggleTask (id t) sample) = totalCount sample.
Proof.
  intros t.
  assert (NoDup (id <$> tasks sample)) as Hnd.
  { apply (bool_decide_unpack _). by vm_compute. }
  split; [by split|].
  exact (toggleTask_unique_id sample 1 t Hnd eq_refl).
Defined.

(** X5: the handlers commute: toggling and deleting, two toggles and two
    deletions can be done in either order, whatever the ids are. *)
Theorem handlers_commute (i j : list N) (a : App) :
  deleteTask i (toggleTask j a) = toggleTask j (deleteTask i a)
  ∧ toggleTask i (toggleTask j a) = toggleTask j (toggleTask i a)
  ∧ deleteTask i (deleteTask j a) = deleteTask j (deleteTask i a).
Proof.
  unfold deleteTask, toggleTask. cbn [tasks setTasks].
  rewrite !setTasks_setTasks. split_and!; f_equal.
  - induction (tasks a) as [|t ts IH]; [done|].
    rewrite fmap_cons, !filter_cons, toggle_id.
    case_decide; [|done]. by rewrite fmap_cons, IH.
  - rewrite <-!list_fmap_compose. apply list_fmap_ext. intros _ t _.
    unfold compose, toggle. destruct t as [u tx c]. cbn [id text completed].
    repeat (case_decide; cbn [id text completed] in * ); congruence.
  - induction (tasks a) as [|t ts IH]; [done|].
    rewrite !filter_cons. repeat (case_decide; rewrite ?filter_cons);
      rewrite ?decide_True, ?decide_False by done; by rewrite ?IH.
Qed.

(** X6: a second press of the add button without typing adds nothing:
    the first [addTask] either rejected the input or cleared the field, so
    the second one only shows the alert. *)
Theorem addTask_twice (now1 now2 : Z) (a : App) :
  tasks (addTask now2 (addTask now1 a)) = tasks (addTask now1 a)
  ∧ alerts (addTask now2 (addTask now1 a))
    = alerts (addTask now1 a)
      ++ [(lit "Empty Task", lit "Please enter a task description")].
Proof.
  assert (∀ b, trim (inputText b) = [] →
    tasks (addTask now2 b) = tasks b
    ∧ alerts (addTask now2 b)
      = alerts b ++ [(lit "Empty Task", lit "Please enter a task description")])
    as Hblank.
  { intros b Hb. unfold addTask. by rewrite decide_True. }
  apply Hblank. unfold addTask. case_decide; [done|]. done.
Qed.

(** X7: adding a task under an id that the store does not hold and then
    deleting that id gives back the task list from before. *)
Theorem add_then_delete (now : Z) (a : App) :
  trim (inputText a) ≠ [] → toString now ∉ (id <$> tasks a) →
  tasks (deleteTask (toString now) (addTask now a)) = tasks a.
Proof.
  intros Hs Hid. unfold deleteTask, addTask. rewrite decide_False by done.
  cbn [tasks setInputText setTasks]. rewrite filter_app, delete_absent by done.
  rewrite filter_cons_False by (by intros []). by rewrite app_nil_r.
Qed.

Lemma add_then_delete_witness :
  let a := setInputText (lit "Call mum") sample in
  (trim (inputText a) ≠ [] ∧ toString 1700000001234 ∉ (id <$> tasks a))
  ∧ tasks (deleteTask (toString 1700000001234) (addTask 1700000001234 a))
    = tasks a.
Proof.
  intros a.
  assert (trim (inputText a) ≠ []) as Hs by (by vm_compute).
  assert (toString 1700000001234 ∉ (id <$> tasks a)) as Hid.
  { apply (bool_decide_unpack _). by vm_compute. }
  split; [by split|].
  exact (add_then_delete 1700000001234 a Hs Hid).
Defined.

(** ** More on [trim] *)

Lemma trimStart_suffix s :
  ∃ w, s = w ++ trimStart s ∧ whitespace_only w.
Proof.
  induction s as [|c s (w & Hw & Hws)]; [exists []; split; [done|constructor]|].
  cbn [trimStart]. destruct (is_white_space c) eqn:Hc.
  - exists (c :: w). split; [by rewrite <-app_comm_cons, <-Hw|].
    by constructor.
  - exists []. split; [done|constructor].
Qed.

Lemma trimEnd_prefix s : ∃ w, s = trimEnd s ++ w.
Proof.
  unfold trimEnd. destruct (trimStart_suffix (reverse s)) as (w & Hw & _).
  exists (reverse w). by rewrite <-reverse_app, <-Hw, reverse_involutive.
Qed.

Lemma trimEnd_idemp s : trimEnd (trimEnd s) = trimEnd s.
Proof. unfold trimEnd. by rewrite reverse_involutive, trimStart_idemp. Qed.

(** What [trim] returns has no white space left at either end. *)
Lemma trim_idemp s : trim (trim s) = trim s.
Proof.
  unfold trim at 1. fold (trim s).
  assert (trimStart (trim s) = trim s) as ->; [|apply trimEnd_idemp].
  unfold trim. destruct (trimEnd_prefix (trimStart s)) as (w & Hw).
  destruct (trimEnd (trimStart s)) as [|c v] eqn:E; [done|].
  eapply trimStart_id; [done|].
  apply (trimStart_head s c (v ++ w)). by rewrite Hw.
Qed.

(** ** More invariants of the runs *)

(** A property of single tasks that [addTask] establishes and [toggle]
    keeps holds for every task along every run. *)
Lemma run_Forall_inv (Q : Task → Prop) es a :
  (∀ i t, Q t → Q (toggle i t)) →
  (∀ now s, trim s ≠ [] →
     Q {| id := toString now; text := trim s; completed := false |}) →
  store_inv (Forall Q) a →
  ∃ a', run es a = Some a' ∧ store_inv (Forall Q) a'.
Proof.
  intros Htoggle Hadd. revert a.
  induction es as [|e es IH]; intros a Ha; [by eexists|]. cbn [run].
  assert (∃ a', step e a = Some a' ∧ store_inv (Forall Q) a')
    as (a' & -> & Ha'); [|by apply IH].
  destruct (AddTask_or_not e) as [[now ->]|Hne].
  - eexists; split; [done|]. destruct Ha as [Hts Hst].
    unfold addTask. case_decide; [done|]. split; [|done].
    cbn [tasks setInputText setTasks]. apply Forall_app. split; [done|].
    constructor; [by apply Hadd|done].
  - apply step_inv; [done| | |done|done].
    + intros i ts Hts. apply Forall_fmap. eapply Forall_impl; [done|].
      intros t ?. by apply Htoggle.
    + intros i ts Hts. rewrite Forall_forall in *.
      intros t [_ Ht]%list_elem_of_filter. by apply Hts.
Qed.

(** X8: in every state that a run reaches from first installation, the
    text of every task is in trimmed form: trimming it again changes
    nothing, so it neither starts nor ends with white space. *)
Theorem reachable_text_trimmed (a : App) :
  reachable a → ∀ t, t ∈ tasks a → trim (text t) = text t.
Proof.
  intros [es Hes] t Ht.
  destruct (run_Forall_inv (λ t, trim (text t) = text t) es fresh)
    as (a' & Ha' & [Hts _]).
  - intros i u. by rewrite toggle_text.
  - intros now s _. cbn [text]. apply trim_idemp.
  - by apply fresh_inv.
  - simplify_eq. rewrite Forall_forall in Hts. by apply Hts.
Qed.

Lemma reachable_text_trimmed_witness :
  let a := setInputText [] (setTasks
             [{| id := lit "5"; text := lit "Buy milk"; completed := false |}]
             fresh) in
  reachable a ∧ ∀ t, t ∈ tasks a → trim (text t) = text t.
Proof.
  intros a.
  assert (reachable a) as Hr.
  { exists [ChangeText (lit "   Buy milk  "); AddTask 5]. by vm_compute. }
  split; [exact Hr|]. exact (reachable_text_trimmed a Hr).
Defined.

Lemma ids_unique_if_clock_increases_witness :
  let es := [ChangeText (lit "Buy milk"); AddTask 1700000000000;
             ChangeText (lit "Walk dog"); AddTask 1700000000999;
             ToggleTask (lit "1700000000000")] in
  let a := setInputText [] (setTasks (tasks sample) fresh) in
  (increasing_from 0 (clock_readings es) ∧ run es fresh = Some a)
  ∧ NoDup (id <$> tasks a).
Proof.
  intros es a.
  assert (increasing_from 0 (clock_readings es)) as Hinc.
  { cbn [es clock_readings increasing_from]. lia. }
  assert (run es fresh = Some a) as Hrun by (by vm_compute).
  split; [by split|].
  exact (ids_unique_if_clock_increases es 0 a Hinc Hrun).
Defined.

(** ** More on persistence *)

(** Only a save that succeeds changes the stored value, and while the
    stored value is a snapshot every event has a next state. *)
Lemma step_keeps_snapshot e a ts0 :
  storage a = Some (JSON_stringify ts0) → e ≠ SaveTasks true →
  ∃ a', step e a = Some a' ∧ storage a' = Some (JSON_stringify ts0).
Proof.
  intros Hst He. destruct e as [|r|w|s|now|i|i]; cbn [step];
    try by (eexists; split; [done|]).
  - unfold loadTasks, load_effect. rewrite Hst.
    destruct r; [|by eexists].
    rewrite JSON_parse_stringify, as_tasks_json. by eexists.
  - destruct w; [done|]. by eexists.
  - eexists; split; [done|]. unfold addTask. by case_decide.
Qed.

Lemma run_keeps_snapshot es a ts0 :
  storage a = Some (JSON_stringify ts0) →
  Forall (λ e, e ≠ SaveTasks true) es →
  ∃ a', run es a = Some a' ∧ storage a' = Some (JSON_stringify ts0).
Proof.
  revert a. induction es as [|e es IH]; intros a Hst Hes; [by eexists|].
  apply Forall_cons in Hes as [He Hes]. cbn [run].
  destruct (step_keeps_snapshot e a ts0) as (a' & -> & Hst'); [done..|].
  by apply IH.
Qed.

(** X10: what a restart shows is the task list of the last save that
    succeeded: whatever happens after that save (typing, adding, toggling,
    deleting, loading, failed saves), mounting and loading again gives the
    task list as it was when it was saved. *)
Theorem restart_restores_last_save (es : list Event) (a : App) :
  Forall (λ e, e ≠ SaveTasks true) es →
  ∃ a', run (SaveTasks true :: es ++ [Mount; LoadTasks true]) a = Some a'
    ∧ tasks a' = tasks a.
Proof.
  intros Hes. cbn [run step saveTasks].
  destruct (run_keeps_snapshot es (setItem (JSON_stringify (tasks a)) a)
              (tasks a)) as (a1 & Hrun & Hst); [done..|].
  assert (∀ es1 es2 b, run (es1 ++ es2) b
            = match run es1 b with Some b' => run es2 b' | None => None end)
    as Happ.
  { induction es1 as [|e es1 IH]; intros es2 b; [done|].
    cbn [app run]. by destruct (step e b). }
  rewrite Happ, Hrun. cbn [run step]. unfold loadTasks, load_effect.
  cbn [storage setInputText setTasks]. rewrite Hst.
  rewrite JSON_parse_stringify, as_tasks_json. by eexists.
Qed.

Lemma restart_restores_last_save_witness :
  let es := [ChangeText (lit "Call mum"); AddTask 1700000001234;
             SaveTasks false; DeleteTask (lit "1700000000000")] in
  Forall (λ e, e ≠ SaveTasks true) es
  ∧ ∃ a', run (SaveTasks true :: es ++ [Mount; LoadTasks true]) sample
          = Some a'
    ∧ tasks a' = tasks sample.
Proof.
  intros es.
  assert (Forall (λ e, e ≠ SaveTasks true) es) as Hes.
  { repeat constructor; discriminate. }
  split; [exact Hes|]. exact (restart_restores_last_save es sample Hes).
Defined.

(** X11: as long as every storage call succeeds, nothing is ever logged:
    along a run from first installation whose reads and writes all resolve,
    the console stays empty, and what is stored can always be read back. *)
Theorem no_error_while_storage_works (es : list Event) (a : App) :
  Forall (λ e, io_ok e = true) es → run es fresh = Some a →
  console a = []
  ∧ (storage a = None ∨ ∃ ts, stored_tasks (storage a) = Some ts).
Proof.
  intros Hes Hrun.
  assert (∀ es b b',
    Forall (λ e, io_ok e = true) es → run es b = Some b' →
    console b = [] ∧ store_inv (λ _, True) b →
    console b' = [] ∧ store_inv (λ _, True) b') as Hinv.
  { clear. induction es as [|e es IH]; intros b b' Hes Hrun Hb.
    - cbn in Hrun. by simplify_eq.
    - apply Forall_cons in Hes as [He Hes]. cbn [run] in Hrun.
      destruct (step e b) as [b1|] eqn:Hstep; [|done].
      apply (IH b1 b' Hes Hrun). pose proof Hb as [Hc [_ Hst]].
      destruct e as [|r|w|s|now|i|i]; cbn [step io_ok] in *; simplify_eq.
      + by repeat split.
      + unfold loadTasks, load_effect in Hstep.
        destruct (storage b) as [s|] eqn:Es; [|by simplify_eq].
        destruct (Hst s eq_refl) as (ts & -> & _).
        rewrite JSON_parse_stringify, as_tasks_json in Hstep.
        cbn in Hstep. simplify_eq. split; [done|]. split; [done|].
        cbn [storage setTasks]. by rewrite Es.
      + split; [done|]. split; [done|]. intros s [= <-]. by eexists.
      + by repeat split.
      + unfold addTask. case_decide; by repeat split.
      + by repeat split.
      + by repeat split. }
  destruct (Hinv es fresh a Hes Hrun) as [Hc [_ Hst]].
  { split; [done|]. by apply fresh_inv. }
  split; [done|]. destruct (storage a) as [s|] eqn:Es; [|by left].
  right. destruct (Hst s eq_refl) as (ts & -> & _). exists ts.
  cbn [stored_tasks]. by rewrite JSON_parse_stringify, as_tasks_json.
Qed.

Lemma no_error_while_storage_works_witness :
  let ts := [{| id := lit "1700000000000"; text := lit "Buy milk";
                completed := false |};
             {| id := lit "1700000000000"; text := lit "Walk dog";
                completed := false |}] in
  let a := setItem (JSON_stringify ts) (setInputText [] (setTasks ts fresh)) in
  (Forall (λ e, io_ok e = true) double_add ∧ run double_add fresh = Some a)
  ∧ console a = []
  ∧ (storage a = None ∨ ∃ ts', stored_tasks (storage a) = Some ts').
Proof.
  intros ts a.
  assert (Forall (λ e, io_ok e = true) double_add) as Hes.
  { repeat constructor. }
  assert (run double_add fresh = Some a) as Hrun by (by vm_compute).
  split; [by split|].
  exact (no_error_while_storage_works double_add a Hes Hrun).
Defined.

(** X12: different task lists are stored as different texts. *)
Theorem JSON_stringify_inj (ts1 ts2 : list Task) :
  JSON_stringify ts1 = JSON_stringify ts2 → ts1 = ts2.
Proof.
  intros E. apply (f_equal (λ s, stored_tasks (Some s))) in E.
  cbn [stored_tasks] in E.
  rewrite !JSON_parse_stringify, !as_tasks_json in E. by simplify_eq.
Qed.

Lemma JSON_stringify_inj_witness :
  JSON_stringify (tasks sample) = JSON_stringify (tasks sample)
  ∧ tasks sample = tasks sample.
Proof.
  split; [reflexivity|]. exact (JSON_stringify_inj _ _ eq_refl).
Defined.

(** ** What the screen shows *)

Lemma length_zero_nil {A} (l : list A) : length l = 0%nat ↔ l = [].
Proof. by destruct l. Qed.

(** X13: the screen shows either the placeholder and no statistics line,
    when there is no task, or the statistics line and one row per task in
    the order of the store: the test [totalCount > 0] of the header and the
    test [tasks.length === 0] of the body never disagree. *)
Theorem render_list_or_placeholder (a : App) :
  (tasks a = [] → stats (render a) = None ∧ rows (render a) = None)
  ∧ (tasks a ≠ [] →
       is_Some (stats (render a))
       ∧ rows (render a) = Some (renderItem <$> tasks a)).
Proof.
  unfold render, totalCount. cbn [stats rows]. split.
  - intros ->. done.
  - intros Hne. assert (0 < length (tasks a))%nat.
    { destruct (tasks a); [done|simpl; lia]. }
    rewrite decide_True, decide_False by lia. done.
Qed.

Lemma render_list_or_placeholder_witness :
  tasks sample ≠ []
  ∧ is_Some (stats (render sample))
  ∧ rows (render sample) = Some (renderItem <$> tasks sample).
Proof.
  assert (tasks sample ≠ []) as Hne by done.
  split; [exact Hne|].
  exact (proj2 (render_list_or_placeholder sample) Hne).
Defined.

Lemma rows_lookup a l k key row :
  rows (render a) = Some l → l !! k = Some (key, row) →
  ∃ t, tasks a !! k = Some t ∧ (key, row) = renderItem t
       ∧ l = renderItem <$> tasks a.
Proof.
  unfold render. cbn [rows]. case_decide; [done|]. intros [= <-].
  rewrite list_lookup_fmap. destruct (tasks a !! k) as [t|]; [|done].
  intros [= <- <-]. by exists t.
Qed.

(** X14: when the ids of the store are pairwise different, pressing the
    content of the row at index [k] changes that row only: the next render
    shows the same rows with the row at [k] flipped. *)
Theorem press_content_flips_one_row (a : App) l (k : nat) key row :
  NoDup (id <$> tasks a) →
  rows (render a) = Some l → l !! k = Some (key, row) →
  ∃ t, tasks a !! k = Some t
    ∧ rows (render (press_content row a))
      = Some (<[k := renderItem (flipped t)]> l).
Proof.
  intros Hnd Hl Hk.
  destruct (rows_lookup a l k key row Hl Hk) as (t & Ht & [= -> ->] & ->).
  exists t. split; [done|].
  cbn [press_content TaskItem onToggle props_id].
  unfold render. cbn [rows]. unfold toggleTask. cbn [tasks setTasks].
  rewrite length_fmap. apply lookup_lt_Some in Ht as Hlt.
  rewrite decide_False by lia.
  by rewrite (toggle_unique _ k), list_fmap_insert.
Qed.

Lemma press_content_flips_one_row_witness :
  let t := {| id := lit "1700000000999"; text := lit "Walk dog";
              completed := false |} in
  (NoDup (id <$> tasks sample)
   ∧ rows (render sample) = Some (renderItem <$> tasks sample)
   ∧ (renderItem <$> tasks sample) !! 1%nat = Some (renderItem t))
  ∧ ∃ t', tasks sample !! 1%nat = Some t'
    ∧ rows (render (press_content (renderItem t).2 sample))
      = Some (<[1%nat := renderItem (flipped t')]> (renderItem <$> tasks sample)).
Proof.
  intros t.
  assert (NoDup (id <$> tasks sample)) as Hnd.
  { apply (bool_decide_unpack _). by vm_compute. }
  split; [by split_and!|].
  exact (press_content_flips_one_row sample _ 1 _ _ Hnd eq_refl eq_refl).
Defined.

(** X15: when the ids of the store are pairwise different, pressing the
    delete button of the row at index [k] removes that row only; when it
    was the last row, the placeholder and no statistics line are shown. *)
Theorem press_delete_removes_one_row (a : App) l (k : nat) key row :
  NoDup (id <$> tasks a) →
  rows (render a) = Some l → l !! k = Some (key, row) →
  rows (render (press_delete row a))
  = (if decide (length l = 1%nat) then None else Some (delete k l))
  ∧ (length l = 1%nat → stats (render (press_delete row a)) = None).
Proof.
  intros Hnd Hl Hk.
  destruct (rows_lookup a l k key row Hl Hk) as (t & Ht & [= -> ->] & ->).
  cbn [press_delete TaskItem onDelete props_id].
  unfold render, totalCount. cbn [rows stats].
  unfold deleteTask. cbn [tasks setTasks].
  rewrite (delete_unique _ k) by done.
  rewrite length_delete, length_fmap by done.
  apply lookup_lt_Some in Ht as Hlt. split.
  - destruct (decide (length (tasks a) = 1%nat)) as [E|E].
    + rewrite decide_True by lia. done.
    + rewrite decide_False by lia. by rewrite list_fmap_delete.
  - intros E. rewrite decide_False by lia. done.
Qed.

Lemma press_delete_removes_one_row_witness :
  let t := {| id := lit "1700000000000"; text := lit "Buy milk";
              completed := true |} in
  (NoDup (id <$> tasks sample)
   ∧ rows (render sample) = Some (renderItem <$> tasks sample)
   ∧ (renderItem <$> tasks sample) !! 0%nat = Some (renderItem t))
  ∧ rows (render (press_delete (renderItem t).2 sample))
    = Some (delete 0%nat (renderItem <$> tasks sample)).
Proof.
  intros t.
  assert (NoDup (id <$> tasks sample)) as Hnd.
  { apply (bool_decide_unpack _). by vm_compute. }
  split; [by split_and!|].
  exact (proj1 (press_delete_removes_one_row sample _ 0 _ _ Hnd
                  eq_refl eq_refl)).
Defined.

(** ** Failures at startup *)

(** X16: when [loadTasks] at startup does not install a task list (the
    read fails, nothing is stored, or the stored text is not JSON), the
    save effect that follows stores the empty list in place of whatever was
    stored before. *)
Theorem startup_without_load_stores_empty (read_ok : bool) (a : App) :
  keeps_tasks (load_effect read_ok (storage a)) = true →
  ∃ a', run [Mount; LoadTasks read_ok; SaveTasks true] a = Some a'
    ∧ tasks a' = []
    ∧ storage a' = Some (lit "[]")
    ∧ stored_tasks (storage a') = Some [].
Proof.
  intros Hk. cbn [run step]. unfold loadTasks.
  cbn [storage setInputText setTasks].
  destruct (load_effect read_ok (storage a)); try done;
    (eexists; split; [reflexivity|]); by split_and!.
Qed.

Lemma startup_without_load_stores_empty_witness :
  keeps_tasks (load_effect true (storage corrupted)) = true
  ∧ ∃ a', run [Mount; LoadTasks true; SaveTasks true] corrupted = Some a'
    ∧ tasks a' = []
    ∧ storage a' = Some (lit "[]")
    ∧ stored_tasks (storage a') = Some [].
Proof.
  assert (keeps_tasks (load_effect true (storage corrupted)) = true) as Hk
    by (by vm_compute).
  split; [exact Hk|].
  exact (startup_without_load_stores_empty true corrupted Hk).
Defined.


